(** * A shallow embedding of the scheduler and synchronisation core of
      thread.cpp (threads, mutexes, condition variables on simulated CPUs)

    The library serialises every operation with one global guard, so the
    embedding works at the granularity of guard-held sections: each public
    entry point, interrupt handler and the exit half of [thread_start] is a
    function from the state at guard acquisition to the state at the next
    guard release on the same CPU.  A context switch inside such a section
    is followed through: [run_next] saves the caller's context (a [frame]
    naming the call site of [run_next]) and continues with the code that
    follows the resumption point of the thread switched to.

    Objects are named by their addresses.  An address handed out by [new]
    or used for a new handle, mutex or condition variable is given with the
    call and must be free; freed thread addresses may be handed out again.
    Behaviour that C++ leaves undefined (the front of an empty queue, a
    write through a dangling pointer) ends the section as [Undefined].
    The destructors of mutexes and condition variables are not among the
    events: those objects outlive their users. *)

From stdpp Require Import gmap.

(** ** Data model *)

(** [thread_startfunc_t]: a null pointer, [idle_func], or a user function. *)
Inductive startfunc :=
  | NullFn
  | IdleFn
  | UserFn (f : nat).

(** The call sites of [run_next]; a context saved by [swapcontext] resumes
    right after the call, in the function the frame names. *)
Inductive frame :=
  | FTimer                (* timer_handler *)
  | FYield                (* thread::yield *)
  | FJoin                 (* thread::join *)
  | FMutexLock (m : nat)  (* mutex::lock -> mutex::impl::lock *)
  | FCvWait (m : nat)     (* cv::wait -> cv::impl::wait, before mtx->lock() *)
  | FCvRelock (m : nat)   (* cv::impl::wait -> mutex::impl::lock *)
  | FIdle                 (* idle_func *)
  | FExit                 (* thread_start, after the user function *)
  | FInit.                (* cpu::init *)

(** [ucontext_t uc]: as built by [makecontext] (entry [thread_start fn arg])
    or as last saved by [swapcontext]. *)
Inductive context :=
  | CStart (fn : startfunc)
  | CSaved (fr : frame).

(** [class thread::impl]; the stack is represented by the context that
    runs on it. *)
Record thread_impl := ThreadImpl {
  parent : option nat;      (* thread* parent *)
  uc : context;
  join_thd : list nat       (* std::queue<thread::impl*> *)
}.

(** [class mutex::impl]. *)
Record mutex_impl := MutexImpl {
  own_thd : option nat;
  thd_q : list nat
}.

(** [class cv::impl]. *)
Record cv_impl := CvImpl {
  cv_thd_q : list nat
}.

(** The process state: the file-level statics, the guard, the objects
    allocated so far, and the log of IPIs sent with [interrupt_send].
    Threads, handles, mutexes, condition variables and CPUs are named by
    their addresses (natural numbers). *)
Record state := State {
  guard : bool;
  ready_queue : list nat;
  idle_queue : list nat;
  suspended_queue : list nat;
  last_free_thread : option nat;
  ipi_log : list nat;
  cur : gmap nat nat;             (* cpu -> impl_ptr->current_thd, absent = nullptr *)
  threads : gmap nat thread_impl; (* live thread::impl objects *)
  handles : gmap nat (option nat);(* live thread objects -> impl_ptr *)
  mutexes : gmap nat mutex_impl;
  cvs : gmap nat cv_impl
}.

Definition set_guard (b : bool) (s : state) : state :=
  State b (ready_queue s) (idle_queue s) (suspended_queue s) (last_free_thread s)
        (ipi_log s) (cur s) (threads s) (handles s) (mutexes s) (cvs s).
Definition set_ready (q : list nat) (s : state) : state :=
  State (guard s) q (idle_queue s) (suspended_queue s) (last_free_thread s)
        (ipi_log s) (cur s) (threads s) (handles s) (mutexes s) (cvs s).
Definition set_idle (q : list nat) (s : state) : state :=
  State (guard s) (ready_queue s) q (suspended_queue s) (last_free_thread s)
        (ipi_log s) (cur s) (threads s) (handles s) (mutexes s) (cvs s).
Definition set_suspended (q : list nat) (s : state) : state :=
  State (guard s) (ready_queue s) (idle_queue s) q (last_free_thread s)
        (ipi_log s) (cur s) (threads s) (handles s) (mutexes s) (cvs s).
Definition set_last_free (o : option nat) (s : state) : state :=
  State (guard s) (ready_queue s) (idle_queue s) (suspended_queue s) o
        (ipi_log s) (cur s) (threads s) (handles s) (mutexes s) (cvs s).
Definition set_ipi_log (l : list nat) (s : state) : state :=
  State (guard s) (ready_queue s) (idle_queue s) (suspended_queue s) (last_free_thread s)
        l (cur s) (threads s) (handles s) (mutexes s) (cvs s).
Definition set_cur (m : gmap nat nat) (s : state) : state :=
  State (guard s) (ready_queue s) (idle_queue s) (suspended_queue s) (last_free_thread s)
        (ipi_log s) m (threads s) (handles s) (mutexes s) (cvs s).
Definition set_threads (m : gmap nat thread_impl) (s : state) : state :=
  State (guard s) (ready_queue s) (idle_queue s) (suspended_queue s) (last_free_thread s)
        (ipi_log s) (cur s) m (handles s) (mutexes s) (cvs s).
Definition set_handles (m : gmap nat (option nat)) (s : state) : state :=
  State (guard s) (ready_queue s) (idle_queue s) (suspended_queue s) (last_free_thread s)
        (ipi_log s) (cur s) (threads s) m (mutexes s) (cvs s).
Definition set_mutexes (m : gmap nat mutex_impl) (s : state) : state :=
  State (guard s) (ready_queue s) (idle_queue s) (suspended_queue s) (last_free_thread s)
        (ipi_log s) (cur s) (threads s) (handles s) m (cvs s).
Definition set_cvs (m : gmap nat cv_impl) (s : state) : state :=
  State (guard s) (ready_queue s) (idle_queue s) (suspended_queue s) (last_free_thread s)
        (ipi_log s) (cur s) (threads s) (handles s) (mutexes s) m.

(** The state before any CPU has booted. *)
Definition init_state : state :=
  State false [] [] [] None [] ∅ ∅ ∅ ∅ ∅.

(** ** Outcomes of a guard-held section *)

(** The two [std::runtime_error]s the library throws. *)
Inductive exn :=
  | NullptrFunction   (* "nullptr function" *)
  | ReleaseNotOwn.    (* "release not-own" *)

Inductive failure :=
  | Undefined   (* behaviour C++ leaves undefined: front() of an empty queue,
                   access through a dangling or null pointer, an address the
                   allocator cannot have returned *)
  | GuardBusy   (* lock() would spin: the guard is held *)
  | OutOfFuel.

Inductive result (A : Type) :=
  | Ok (a : A) (s : state)
  | Throw (e : exn) (s : state)
  | Stuck (f : failure).
Arguments Ok {A} a s.
Arguments Throw {A} e s.
Arguments Stuck {A} f.

Definition M (A : Type) : Type := state → result A.

Definition ret {A} (a : A) : M A := λ s, Ok a s.
Definition bind {A B} (m : M A) (k : A → M B) : M B :=
  λ s, match m s with
       | Ok a s' => k a s'
       | Throw e s' => Throw e s'
       | Stuck f => Stuck f
       end.
Definition fail {A} (f : failure) : M A := λ _, Stuck f.
Definition throw {A} (e : exn) : M A := λ s, Throw e s.
Definition get : M state := λ s, Ok s s.
Definition modify (f : state → state) : M unit := λ s, Ok tt (f s).
Definition assume {A} (o : option A) : M A :=
  match o with Some a => ret a | None => fail Undefined end.

Global Instance M_ret : MRet M := @ret.
Global Instance M_bind : MBind M := λ A B k m, bind m k.

(** How the guard-held section ended on this CPU. *)
Inductive ending :=
  | RetCall                    (* the entry point returned to its caller *)
  | RetResumed (fr : frame)    (* a switched-to thread returned from the call
                                  in which it had been switched away *)
  | RetStarted (fn : startfunc)(* a new thread entered its function *)
  | RetSuspended.              (* idle_func parked the CPU *)

(** ** The guard *)

(** [lock()]: disable interrupts, then spin on the guard.  Interrupt
    masking belongs to the CPU collaborator; its effect here is that timer
    events happen between guard-held sections only.  A section entered with
    the guard taken would spin. *)
Definition lock : M unit :=
  λ s, if guard s then Stuck GuardBusy else Ok tt (set_guard true s).

(** [unlock()]: release the guard, then enable interrupts. *)
Definition unlock : M unit := modify (set_guard false).

(** [cpu::impl::current()]. *)
Definition current (c : nat) : M (option nat) := λ s, Ok (cur s !! c) s.

(** The current thread where the code stores or dereferences it. *)
Definition self_thd (c : nat) : M nat := o ← current c; assume o.

(** ** Object access *)

Definition gets {A} (f : state → A) : M A := λ s, Ok (f s) s.

Definition thread_at (t : nat) : M thread_impl := λ s,
  match threads s !! t with Some th => Ok th s | None => Stuck Undefined end.
Definition upd_thread (t : nat) (f : thread_impl → thread_impl) : M unit := λ s,
  match threads s !! t with
  | Some th => Ok tt (set_threads (<[t := f th]> (threads s)) s)
  | None => Stuck Undefined
  end.

Definition mutex_at (m : nat) : M mutex_impl := λ s,
  match mutexes s !! m with Some mx => Ok mx s | None => Stuck Undefined end.
Definition upd_mutex (m : nat) (f : mutex_impl → mutex_impl) : M unit := λ s,
  match mutexes s !! m with
  | Some mx => Ok tt (set_mutexes (<[m := f mx]> (mutexes s)) s)
  | None => Stuck Undefined
  end.

Definition cv_at (v : nat) : M cv_impl := λ s,
  match cvs s !! v with Some cv => Ok cv s | None => Stuck Undefined end.
Definition upd_cv (v : nat) (f : cv_impl → cv_impl) : M unit := λ s,
  match cvs s !! v with
  | Some cv => Ok tt (set_cvs (<[v := f cv]> (cvs s)) s)
  | None => Stuck Undefined
  end.

(** [h->impl_ptr] read and written through a pointer to a live handle. *)
Definition impl_ptr (h : nat) : M (option nat) := λ s,
  match handles s !! h with Some p => Ok p s | None => Stuck Undefined end.
Definition set_impl_ptr (h : nat) (p : option nat) : M unit := λ s,
  match handles s !! h with
  | Some _ => Ok tt (set_handles (<[h := p]> (handles s)) s)
  | None => Stuck Undefined
  end.

Definition set_parent (p : option nat) (th : thread_impl) : thread_impl :=
  ThreadImpl p (uc th) (join_thd th).
Definition set_uc (u : context) (th : thread_impl) : thread_impl :=
  ThreadImpl (parent th) u (join_thd th).
Definition set_join_thd (q : list nat) (th : thread_impl) : thread_impl :=
  ThreadImpl (parent th) (uc th) q.
Definition set_own_thd (o : option nat) (mx : mutex_impl) : mutex_impl :=
  MutexImpl o (thd_q mx).
Definition set_thd_q (q : list nat) (mx : mutex_impl) : mutex_impl :=
  MutexImpl (own_thd mx) q.

(** [std::queue]: [push] appends at the back, [front]/[pop] take the head. *)
Definition push (t : nat) (q : list nat) : list nat := q ++ [t].

Definition ready_push (t : nat) : M unit :=
  modify (λ s, set_ready (push t (ready_queue s)) s).
Definition idle_push (t : nat) : M unit :=
  modify (λ s, set_idle (push t (idle_queue s)) s).

(** ** Scheduler *)

(** [wakeup_one_cpu()]. *)
Definition wakeup_one_cpu : M unit := λ s,
  match ready_queue s, suspended_queue s with
  | _ :: _, c :: q =>
      Ok tt (set_suspended q (set_ipi_log (ipi_log s ++ [c]) s))
  | _, _ => Ok tt s
  end.

(** [delete last_free_thread; last_free_thread = nullptr;] where the
    destructor [thread::impl::~impl] writes through [parent]. *)
Definition delete_last_free : M unit :=
  o ← gets last_free_thread;
  match o with
  | None => mret tt
  | Some z =>
      th ← thread_at z;
      match parent th with
      | Some h => set_impl_ptr h None
      | None => mret tt
      end;;
      modify (λ s, set_threads (delete z (threads s)) s)
  end;;
  modify (set_last_free None).

(** The choice of the next thread in [run_next]. *)
Definition pick_next : M nat := λ s,
  match ready_queue s with
  | t :: q => Ok t (set_ready q s)
  | [] =>
      match idle_queue s with
      | t :: q => Ok t (set_idle q s)
      | [] => Stuck Undefined
      end
  end.

(** [run_next] up to and including the context switch: the state in which
    the next thread's context starts to run. *)
Definition switch_to (c : nat) (fr : frame) : M unit :=
  old ← current c;
  next ← pick_next;
  modify (λ s, set_cur (<[c := next]> (cur s)) s);;
  _ ← thread_at next;
  match old with
  | Some o => upd_thread o (set_uc (CSaved fr))      (* swapcontext *)
  | None => mret tt                                   (* setcontext *)
  end.

(** [mutex::impl::lock], given the scheduler to call when it blocks. *)
Definition mutex_impl_lock (rn : frame → M ending) (c m : nat) (fr : frame)
    : M (option ending) :=
  mx ← mutex_at m;
  match own_thd mx with
  | Some _ =>
      t ← self_thd c;
      upd_mutex m (λ mx, set_thd_q (push t (thd_q mx)) mx);;
      r ← rn fr;
      mret (Some r)
  | None =>
      o ← current c;
      upd_mutex m (set_own_thd o);;
      mret None
  end.

(** The code a thread runs after [run_next] has returned to its caller at
    [fr], until the guard is released: the tail of the caller, and for
    [cv::impl::wait] the [mtx->lock()] that follows, which may block again. *)
Definition after_run_next (rn : frame → M ending) (c : nat) (fr : frame)
    : M ending :=
  match fr with
  | FTimer | FYield | FJoin | FMutexLock _ | FCvRelock _ =>
      unlock;; mret (RetResumed fr)
  | FCvWait m =>
      o ← mutex_impl_lock rn c m (FCvRelock m);
      match o with
      | None => unlock;; mret (RetResumed fr)
      | Some r => mret r
      end
  | FIdle =>
      modify (λ s, set_suspended (suspended_queue s ++ [c]) s);;
      modify (set_guard false);;
      mret RetSuspended
  | FExit | FInit => fail Undefined   (* never resumed *)
  end.

(** What runs on CPU [c] once [swapcontext]/[setcontext] has switched to its
    new current thread: a fresh context enters [thread_start], a saved one
    returns from [swapcontext] into the tail of [run_next].  Both begin with
    the deferred free. *)
Definition resume (rn : frame → M ending) (c : nat) : M ending :=
  t ← self_thd c;
  th ← thread_at t;
  match uc th with
  | CStart fn =>                 (* entry half of thread_start *)
      delete_last_free;; unlock;; mret (RetStarted fn)
  | CSaved fr =>                 (* tail of run_next, then its caller *)
      delete_last_free;; after_run_next rn c fr
  end.

(** [run_next] with a bound on the number of switches it follows. *)
Fixpoint run_next_fuel (fuel : nat) (c : nat) (fr : frame) : M ending :=
  match fuel with
  | O => fail OutOfFuel
  | S n => switch_to c fr;; resume (run_next_fuel n c) c
  end.

(** [cpu::impl::run_next()], called from the site [fr] on CPU [c].  Every
    switch removes one thread from the ready or idle queue, which bounds the
    number of switches of one guard-held section. *)
Definition run_next (c : nat) (fr : frame) : M ending := λ s,
  run_next_fuel (S (length (ready_queue s) + length (idle_queue s))) c fr s.

(** [cpu::impl::lock_guard] around a body; [Some r] from the body means that
    [run_next] switched away and the section ended as [r] in another thread,
    which released the guard itself. *)
Definition lock_guard (body : M (option ending)) : M ending := λ s,
  match lock s with
  | Ok _ s1 =>
      match body s1 with
      | Ok None s2 => Ok RetCall (set_guard false s2)
      | Ok (Some r) s2 => Ok r s2
      | Throw e s2 => Throw e (set_guard false s2)
      | Stuck f => Stuck f
      end
  | Throw e s1 => Throw e s1
  | Stuck f => Stuck f
  end.

Definition switched (m : M ending) : M (option ending) := r ← m; mret (Some r).
Definition returned (m : M unit) : M (option ending) := m;; mret None.

(** ** Idle loop and interrupt handlers *)

(** One turn of the loop of [idle_func]: from [lock()] (at entry, or after
    [interrupt_enable_suspend] returned) to the next release of the guard. *)
Definition idle_func (c : nat) : M ending :=
  lock;;
  ti ← self_thd c;
  idle_push ti;;
  run_next c FIdle.

(** [timer_handler()]. *)
Definition timer_handler (c : nat) : M ending :=
  lock_guard (
    q ← gets ready_queue;
    match q with
    | [] => mret None
    | _ :: _ =>
        t ← self_thd c;
        ready_push t;;
        switched (run_next c FTimer)
    end).

(** The tail of [cpu::init]: [lock(); cpu::impl::run_next();] on a CPU
    whose [current_thd] is still null. *)
Definition cpu_init_enter (c : nat) : M ending :=
  lock;; run_next c FInit.

(** ** Thread lifecycle *)

(** [thread::impl::impl(p, fn, arg)] constructing the object at address [t]. *)
Definition thread_impl_ctor (t p : nat) (fn : startfunc) : M unit :=
  match fn with
  | NullFn => throw NullptrFunction
  | _ =>
      modify (λ s, set_threads (<[t := ThreadImpl (Some p) (CStart fn) []]> (threads s)) s);;
      match fn with
      | IdleFn => idle_push t
      | _ => ready_push t;; wakeup_one_cpu
      end
  end.

(** [thread::thread(fn, arg)] constructing the handle at address [h]; [t] is
    the address [new] returns for the internal thread. *)
Definition thread_ctor (h : nat) (fn : startfunc) (t : nat) : M ending :=
  lock_guard (
    s ← get;
    match handles s !! h, threads s !! t with
    | None, None =>
        thread_impl_ctor t h fn;;
        modify (λ s, set_handles (<[h := Some t]> (handles s)) s);;
        mret None
    | _, _ => fail Undefined
    end).

(** [thread::~thread()]; the handle's storage ends with it. *)
Definition thread_dtor (h : nat) : M ending :=
  lock_guard (
    p ← impl_ptr h;
    match p with
    | Some t => upd_thread t (set_parent None)
    | None => mret tt
    end;;
    modify (λ s, set_handles (delete h (handles s)) s);;
    mret None).

(** [thread::thread(thread&& other)] constructing the handle at [h]. *)
Definition thread_move_ctor (h other : nat) : M ending :=
  lock_guard (
    s ← get;
    match handles s !! h with
    | Some _ => fail Undefined
    | None =>
        p ← impl_ptr other;
        modify (λ s, set_handles (<[h := p]> (handles s)) s);;
        set_impl_ptr other None;;
        p' ← impl_ptr h;
        match p' with
        | Some t => upd_thread t (set_parent (Some h))
        | None => mret tt
        end;;
        mret None
    end).

(** [thread::operator=(thread&& other)] on the handle at [h]. *)
Definition thread_move_assign (h other : nat) : M ending :=
  lock_guard (
    p ← impl_ptr other;
    set_impl_ptr h p;;
    set_impl_ptr other None;;
    p' ← impl_ptr h;
    match p' with
    | Some t => upd_thread t (set_parent (Some h))
    | None => mret tt
    end;;
    mret None).

(** [thread::join()]. *)
Definition thread_join (c h : nat) : M ending :=
  lock_guard (
    p ← impl_ptr h;
    match p with
    | Some t =>
        me ← self_thd c;
        upd_thread t (λ th, set_join_thd (push me (join_thd th)) th);;
        switched (run_next c FJoin)
    | None => mret None
    end).

(** [thread::yield()]. *)
Definition thread_yield (c : nat) : M ending :=
  lock_guard (
    q ← gets ready_queue;
    match q with
    | [] => mret None
    | _ :: _ =>
        t ← self_thd c;
        ready_push t;;
        switched (run_next c FYield)
    end).

(** The [while] loop of [thread_start] over the join queue [q] of [t]. *)
Fixpoint wake_joiners (t : nat) (q : list nat) : M unit :=
  match q with
  | [] => mret tt
  | parent_thd :: q' =>
      ready_push parent_thd;;
      wakeup_one_cpu;;
      upd_thread t (λ th, set_join_thd (tail (join_thd th)) th);;
      wake_joiners t q'
  end.

(** The exit half of [thread_start] up to the final [run_next]: after the
    user function has returned. *)
Definition thread_exit_steps (c : nat) : M nat :=
  lock;;
  current_thd ← self_thd c;
  th ← thread_at current_thd;
  wake_joiners current_thd (join_thd th);;
  th ← thread_at current_thd;
  match parent th with
  | Some h => set_impl_ptr h None
  | None => mret tt
  end;;
  modify (set_last_free (Some current_thd));;
  mret current_thd.

(** The exit half of [thread_start]. *)
Definition thread_start_exit (c : nat) : M ending :=
  thread_exit_steps c;; run_next c FExit.

(** ** Mutex *)

(** [mutex::impl::unlock()]. *)
Definition mutex_impl_unlock (c m : nat) : M unit :=
  mx ← mutex_at m;
  o ← current c;
  if decide (own_thd mx = o) then
    upd_mutex m (set_own_thd None);;
    mx ← mutex_at m;
    match thd_q mx with
    | [] => mret tt
    | t :: _ =>
        ready_push t;;
        upd_mutex m (set_own_thd (Some t));;
        upd_mutex m (λ mx, set_thd_q (tail (thd_q mx)) mx);;
        wakeup_one_cpu
    end
  else throw ReleaseNotOwn.

(** [mutex::mutex()] constructing the mutex at address [m]. *)
Definition mutex_ctor (m : nat) : M ending :=
  lock_guard (
    s ← get;
    match mutexes s !! m with
    | Some _ => fail Undefined
    | None =>
        modify (λ s, set_mutexes (<[m := MutexImpl None []]> (mutexes s)) s);;
        mret None
    end).

(** [mutex::lock()]. *)
Definition mutex_lock (c m : nat) : M ending :=
  lock_guard (mutex_impl_lock (run_next c) c m (FMutexLock m)).

(** [mutex::unlock()]. *)
Definition mutex_unlock (c m : nat) : M ending :=
  lock_guard (returned (mutex_impl_unlock c m)).

(** ** Condition variable *)

(** [cv::impl::wait(mtx)] up to its [run_next]; the [mtx->lock()] after it
    is the [FCvWait] case of [after_run_next]. *)
Definition cv_impl_wait (c v m : nat) : M ending :=
  mutex_impl_unlock c m;;
  t ← self_thd c;
  upd_cv v (λ cv, CvImpl (push t (cv_thd_q cv)));;
  run_next c (FCvWait m).

(** [cv::impl::signal()]. *)
Definition cv_impl_signal (v : nat) : M unit :=
  cv ← cv_at v;
  match cv_thd_q cv with
  | [] => mret tt
  | t :: _ =>
      ready_push t;;
      upd_cv v (λ cv, CvImpl (tail (cv_thd_q cv)));;
      wakeup_one_cpu
  end.

(** The [while] loop of [cv::impl::broadcast()] over the wait queue [q]. *)
Fixpoint cv_broadcast_loop (v : nat) (q : list nat) : M unit :=
  match q with
  | [] => mret tt
  | t :: q' =>
      ready_push t;;
      upd_cv v (λ cv, CvImpl (tail (cv_thd_q cv)));;
      wakeup_one_cpu;;
      cv_broadcast_loop v q'
  end.

Definition cv_impl_broadcast (v : nat) : M unit :=
  cv ← cv_at v;
  cv_broadcast_loop v (cv_thd_q cv).

(** [cv::cv()] constructing the condition variable at address [v]. *)
Definition cv_ctor (v : nat) : M ending :=
  lock_guard (
    s ← get;
    match cvs s !! v with
    | Some _ => fail Undefined
    | None =>
        modify (λ s, set_cvs (<[v := CvImpl []]> (cvs s)) s);;
        mret None
    end).

Definition cv_signal (v : nat) : M ending :=
  lock_guard (returned (cv_impl_signal v)).

Definition cv_broadcast (v : nat) : M ending :=
  lock_guard (returned (cv_impl_broadcast v)).

(** [cv::wait(mtx)]. *)
Definition cv_wait (c v m : nat) : M ending :=
  lock_guard (switched (cv_impl_wait c v m)).

(** ** The transition system *)

(** What can happen on a CPU while the guard is free: the code running
    there enters the library, its user function returns, the idle loop takes
    a turn, or the timer fires. *)
Inductive event :=
  | EThreadCtor (h : nat) (fn : startfunc) (t : nat)
  | EThreadDtor (h : nat)
  | EThreadMoveCtor (h other : nat)
  | EThreadMoveAssign (h other : nat)
  | EThreadJoin (h : nat)
  | EThreadYield
  | EMutexCtor (m : nat)
  | EMutexLock (m : nat)
  | EMutexUnlock (m : nat)
  | ECvCtor (v : nat)
  | ECvWait (v m : nat)
  | ECvSignal (v : nat)
  | ECvBroadcast (v : nat)
  | ETimer
  | EFnReturn
  | EIdle
  | ECpuEnter.

Definition exec (c : nat) (e : event) : M ending :=
  match e with
  | EThreadCtor h fn t => thread_ctor h fn t
  | EThreadDtor h => thread_dtor h
  | EThreadMoveCtor h other => thread_move_ctor h other
  | EThreadMoveAssign h other => thread_move_assign h other
  | EThreadJoin h => thread_join c h
  | EThreadYield => thread_yield c
  | EMutexCtor m => mutex_ctor m
  | EMutexLock m => mutex_lock c m
  | EMutexUnlock m => mutex_unlock c m
  | ECvCtor v => cv_ctor v
  | ECvWait v m => cv_wait c v m
  | ECvSignal v => cv_signal v
  | ECvBroadcast v => cv_broadcast v
  | ETimer => timer_handler c
  | EFnReturn => thread_start_exit c
  | EIdle => idle_func c
  | ECpuEnter => cpu_init_enter c
  end.

(** Before a CPU has entered the scheduler ([current_thd] null) it runs
    [cpu::init], which only constructs and destroys thread handles and then
    enters; afterwards its current thread runs. *)
Definition enabled (c : nat) (e : event) (s : state) : bool :=
  match cur s !! c with
  | None =>
      match e with
      | EThreadCtor _ _ _ | EThreadDtor _ | ECpuEnter => true
      | _ => false
      end
  | Some _ =>
      match e with
      | ECpuEnter => false
      | _ => true
      end
  end.

Inductive step (s : state) : state → Prop :=
  | step_ok c e r s' :
      enabled c e s = true → exec c e s = Ok r s' → step s s'
  | step_throw c e x s' :
      enabled c e s = true → exec c e s = Throw x s' → step s s'.

Inductive reachable : state → Prop :=
  | reachable_init : reachable init_state
  | reachable_step s s' : reachable s → step s s' → reachable s'.

(** Running a list of events, each on its CPU; an exception is returned to
    the caller, which carries on. *)
Fixpoint run (evs : list (nat * event)) (s : state) : option state :=
  match evs with
  | [] => Some s
  | (c, e) :: evs' =>
      if enabled c e s then
        match exec c e s with
        | Ok _ s' | Throw _ s' => run evs' s'
        | Stuck _ => None
        end
      else None
  end.

(** * Vocabulary of the verification *)

Ltac munfold :=
  repeat (progress (unfold switched, returned, mbind, M_bind, mret, M_ret,
                      bind, ret, gets, get, modify, fail, throw, assume in *;
                    cbn beta in *)).

(** The state [mutex::impl::unlock] leaves when the owner releases a mutex
    with waiters, before [wakeup_one_cpu]. *)
Definition handed_off (m t : nat) (q : list nat) (s : state) : state :=
  set_mutexes (<[m := MutexImpl (Some t) q]> (mutexes s))
    (set_ready (push t (ready_queue s)) s).

(** The places the spec lists for the single-reference invariant. *)
Inductive site :=
  | SCpu (c : nat)
  | SReady
  | SIdle
  | SMutex (m : nat)
  | SCv (v : nat)
  | SJoin (t : nat)
  | SFree.

Global Instance site_eq_dec : EqDecision site.
Proof. solve_decision. Defined.

Definition site_list (s : state) (x : site) : list nat :=
  match x with
  | SCpu c => option_list (cur s !! c)
  | SReady => ready_queue s
  | SIdle => idle_queue s
  | SMutex m => from_option thd_q [] (mutexes s !! m)
  | SCv v => from_option cv_thd_q [] (cvs s !! v)
  | SJoin t => from_option join_thd [] (threads s !! t)
  | SFree => option_list (last_free_thread s)
  end.

(** The mutex a saved context is about to return as owner of. *)
Definition lock_frame (u : context) : option nat :=
  match u with
  | CSaved (FMutexLock m) | CSaved (FCvRelock m) => Some m
  | _ => None
  end.

(** What the place a thread is referenced from says about its context. *)
Definition typed_at (mtx : gmap nat mutex_impl) (t : nat) (x : site) (u : context) : Prop :=
  match x with
  | SReady => ∀ m, lock_frame u = Some m → own_thd <$> mtx !! m = Some (Some t)
  | SMutex m => lock_frame u = Some m
  | SCv _ | SJoin _ | SIdle => lock_frame u = None
  | SCpu _ | SFree => True
  end.

(** Well-formedness, over a view [L] of the reference sites and a view
    [ctx] of the threads' contexts. *)
Record wf_gen (L : site → list nat) (ctx : nat → option context)
    (mtx : gmap nat mutex_impl) : Prop := WfGen {
  wf_nodup : ∀ x, NoDup (L x);
  wf_single : ∀ t x y, t ∈ L x → t ∈ L y → x = y;
  wf_live : ∀ t x, t ∈ L x → is_Some (ctx t);
  wf_typed : ∀ t x u, t ∈ L x → ctx t = Some u → typed_at mtx t x u;
  wf_mutex : ∀ m mx, mtx !! m = Some mx → thd_q mx ≠ [] → own_thd mx ≠ None;
  wf_exited : ∀ t, ctx t = Some (CSaved FExit) → t ∈ L SFree
}.

Arguments wf_nodup {L ctx mtx} _ x.
Arguments wf_single {L ctx mtx} _ t x y _ _.
Arguments wf_live {L ctx mtx} _ t x _.
Arguments wf_typed {L ctx mtx} _ t x u _ _.
Arguments wf_mutex {L ctx mtx} _ m mx _ _.
Arguments wf_exited {L ctx mtx} _ t _.

Definition actx (s : state) (t : nat) : option context := uc <$> threads s !! t.

(** Well-formed states, while the guard is held or not. *)
Definition WF (s : state) : Prop := wf_gen (site_list s) (actx s) (mutexes s).

(** The invariant of the states in which the guard is free. *)
Definition Inv (s : state) : Prop :=
  WF s ∧ guard s = false ∧ last_free_thread s = None.

(** The view in which CPU [c] is between threads: its [current_thd] is not
    counted, and the context of the thread it is leaving is the one
    [swapcontext] is about to save. *)
Definition masked (c : nat) (L : site → list nat) : site → list nat :=
  λ x, if decide (x = SCpu c) then [] else L x.

(** The contexts as they will be once CPU [c] has saved the context of its
    current thread at [fr]. *)
Definition pctx (c : nat) (fr : frame) (s : state) (t : nat) : option context :=
  if decide (cur s !! c = Some t) then Some (CSaved fr) else actx s t.

(** The precondition of [run_next] called from [fr] on CPU [c]. *)
Definition Pre (c : nat) (fr : frame) (s : state) : Prop :=
  wf_gen (masked c (site_list s)) (pctx c fr s) (mutexes s).

(** What the ending says about the thread that now runs on the CPU. *)
Definition EndOk (c : nat) (r : ending) (s' : state) : Prop :=
  ∀ fr m, r = RetResumed fr →
    fr = FCvWait m ∨ lock_frame (CSaved fr) = Some m →
    ∃ t, cur s' !! c = Some t ∧ own_thd <$> mutexes s' !! m = Some (Some t).

(** What [run_next] guarantees: it does not throw, and where it returns the
    guard is free again and the invariant holds. *)
Definition post (c : nat) (res : result ending) : Prop :=
  match res with
  | Ok r s' => Inv s' ∧ EndOk c r s'
  | Throw _ _ => False
  | Stuck _ => True
  end.

(** A scheduler that meets [post] from [Pre]. *)
Definition rn_ok (c : nat) (rn : frame → M ending) : Prop :=
  ∀ fr s, Pre c fr s → guard s = true → post c (rn fr s).

(** The guard-held part that does not switch: what the proofs keep track of. *)
Definition Held (s : state) : Prop :=
  WF s ∧ last_free_thread s = None ∧ guard s = true.

(** What every guard-held section guarantees, an exception included. *)
Definition post_ev (c : nat) (res : result ending) : Prop :=
  match res with
  | Ok r s' => Inv s' ∧ EndOk c r s'
  | Throw _ s' => Inv s'
  | Stuck _ => True
  end.

(** What the loops and the non-blocking operations leave alone. *)
Definition stable (s s' : state) : Prop :=
  cur s' = cur s ∧ last_free_thread s' = last_free_thread s ∧
  guard s' = guard s ∧ mutexes s' = mutexes s ∧ handles s' = handles s ∧
  (∀ t, actx s' t = actx s t) ∧
  (∀ t, parent <$> threads s' !! t = parent <$> threads s !! t).

(** The number of threads [run_next] can still switch to. *)
Definition queued (s : state) : nat :=
  length (ready_queue s) + length (idle_queue s).

(** The join queue of a live thread. *)
Definition jq (s : state) (t : nat) : option (list nat) :=
  join_thd <$> threads s !! t.

(** The state a section ends in, by return or by exception. *)
Definition final {A} (res : result A) : option state :=
  match res with
  | Ok _ s | Throw _ s => Some s
  | Stuck _ => None
  end.



(** The state [wakeup_one_cpu] leaves. *)
Definition woken (s : state) : state :=
  match ready_queue s, suspended_queue s with
  | _ :: _, c :: q => set_suspended q (set_ipi_log (ipi_log s ++ [c]) s)
  | _, _ => s
  end.

(** CPU 0 has booted with main thread 1 and idle thread 2; thread 1 has
    made mutex 7, condition variable 8 and thread 3 (handle 102), locked the
    mutex and yielded, so that thread 3 runs. *)
Definition demo_events_B : list (nat * event) :=
  [(0, EThreadCtor 100 (UserFn 1) 1); (0, EThreadDtor 100);
   (0, EThreadCtor 101 IdleFn 2); (0, ECpuEnter);
   (0, EMutexCtor 7); (0, ECvCtor 8); (0, EThreadCtor 102 (UserFn 2) 3);
   (0, EMutexLock 7); (0, EThreadYield)].

(** The state after [demo_events_B]. *)
Definition demo_B : state :=
  State false [1] [2] [] None []
    {[0 := 3]}
    {[1 := ThreadImpl None (CSaved FYield) [];
      2 := ThreadImpl (Some 101) (CStart IdleFn) [];
      3 := ThreadImpl (Some 102) (CStart (UserFn 2)) []]}
    {[101 := Some 2; 102 := Some 3]}
    {[7 := MutexImpl (Some 1) []]}
    {[8 := CvImpl []]}.

(** Then thread 3 has tried to lock the mutex, and thread 1 runs again. *)
Definition demo_A : state :=
  State false [] [2] [] None []
    {[0 := 1]}
    {[1 := ThreadImpl None (CSaved FYield) [];
      2 := ThreadImpl (Some 101) (CStart IdleFn) [];
      3 := ThreadImpl (Some 102) (CSaved (FMutexLock 7)) []]}
    {[101 := Some 2; 102 := Some 3]}
    {[7 := MutexImpl (Some 1) [3]]}
    {[8 := CvImpl []]}.

(** [demo_B] after the exit steps of thread 3, before its last [run_next]. *)
Definition demo_B_exit : state :=
  set_last_free (Some 3)
    (set_handles (<[102 := None]> (handles demo_B)) (set_guard true demo_B)).

(** The link between handles and internal threads: a handle's non-null
    [impl_ptr] names a live thread whose [parent] is the handle, and a live
    thread's non-null [parent] names a live handle whose [impl_ptr] is the
    thread. *)
Definition handle_linked (s : state) (h : nat) (p : option nat) : bool :=
  match p with
  | Some t => bool_decide (parent <$> threads s !! t = Some (Some h))
  | None => true
  end.

(** The same from the side of the internal thread. *)
Definition thread_linked (s : state) (t : nat) (th : thread_impl) : bool :=
  match parent th with
  | Some h => bool_decide (handles s !! h = Some (Some t))
  | None => true
  end.

(** Every handle and every internal thread is linked consistently. *)
Definition linked (s : state) : bool :=
  forallb (λ '(h, p), handle_linked s h p) (map_to_list (handles s)) &&
  forallb (λ '(t, th), thread_linked s t th) (map_to_list (threads s)).

(** Thread 1 runs on CPU 0 and has made handle 10 for thread 3 and handle 11
    for thread 4. *)
Definition demo_events_H : list (nat * event) :=
  [(0, EThreadCtor 100 (UserFn 1) 1); (0, EThreadDtor 100);
   (0, EThreadCtor 101 IdleFn 2); (0, ECpuEnter);
   (0, EThreadCtor 10 (UserFn 2) 3); (0, EThreadCtor 11 (UserFn 3) 4)].

(** The state after [demo_events_H]. *)
Definition demo_H : state :=
  State false [3; 4] [2] [] None []
    {[0 := 1]}
    {[1 := ThreadImpl None (CStart (UserFn 1)) [];
      2 := ThreadImpl (Some 101) (CStart IdleFn) [];
      3 := ThreadImpl (Some 10) (CStart (UserFn 2)) [];
      4 := ThreadImpl (Some 11) (CStart (UserFn 3)) []]}
    {[101 := Some 2; 10 := Some 3; 11 := Some 4]}
    ∅ ∅.

(** [demo_H] after [h10 = std::move(h11)]. *)
Definition demo_H_moved : state :=
  set_threads (<[4 := ThreadImpl (Some 10) (CStart (UserFn 3)) []]> (threads demo_H))
    (set_handles (<[11 := None]> (<[10 := Some 4]> (handles demo_H))) demo_H).

(** A handle whose thread has been moved away, for [join] on a null handle:
    [demo_A] after [thread h103(std::move(h102))]. *)
Definition demo_C : state :=
  set_threads (<[3 := ThreadImpl (Some 103) (CSaved (FMutexLock 7)) []]> (threads demo_A))
    (set_handles (<[102 := None]> (<[103 := Some 3]> (handles demo_A))) demo_A).


(** * Verification *)

(** ** What [mutex::impl::unlock] computes *)

Lemma set_guard_release s :
  guard s = false → set_guard false (set_guard true s) = s.
Proof. destruct s; simpl; intros ->; reflexivity. Qed.

Lemma mutex_impl_unlock_not_owner c m s mx :
  mutexes s !! m = Some mx → own_thd mx ≠ cur s !! c →
  mutex_impl_unlock c m s = Throw ReleaseNotOwn s.
Proof.
  intros Hm Hne. unfold mutex_impl_unlock, mutex_at, current. munfold.
  rewrite Hm. case_decide; [congruence | reflexivity].
Qed.

Lemma mutex_impl_unlock_handoff c m s mx t q :
  mutexes s !! m = Some mx → own_thd mx = cur s !! c → thd_q mx = t :: q →
  mutex_impl_unlock c m s = wakeup_one_cpu (handed_off m t q s).
Proof.
  intros Hm Ho Hq. unfold mutex_impl_unlock, mutex_at, current, upd_mutex, ready_push.
  munfold. rewrite Hm. case_decide; [|congruence]. simpl.
  rewrite Hm. simpl. rewrite lookup_insert_eq. simpl. rewrite Hq. simpl.
  rewrite lookup_insert_eq. simpl. rewrite lookup_insert_eq. simpl.
  unfold set_thd_q, set_own_thd, handed_off, set_mutexes, set_ready. simpl.
  rewrite Hq, !insert_insert_eq. reflexivity.
Qed.

Lemma mutex_impl_unlock_free c m s mx :
  mutexes s !! m = Some mx → own_thd mx = cur s !! c → thd_q mx = [] →
  mutex_impl_unlock c m s =
    Ok tt (set_mutexes (<[m := MutexImpl None []]> (mutexes s)) s).
Proof.
  intros Hm Ho Hq. unfold mutex_impl_unlock, mutex_at, current, upd_mutex.
  munfold. rewrite Hm. case_decide; [|congruence]. simpl.
  rewrite Hm. simpl. rewrite lookup_insert_eq. simpl. rewrite Hq.
  unfold set_own_thd. rewrite Hq. reflexivity.
Qed.

(** ** Well-formedness under the elementary changes *)

Section wf_gen_lemmas.
Implicit Types (L : site → list nat) (ctx : nat → option context).
Implicit Types (mtx : gmap nat mutex_impl).

Lemma wf_gen_ext {L L' ctx ctx' mtx} :
  (∀ x, L' x = L x) → (∀ t, ctx' t = ctx t) →
  wf_gen L ctx mtx → wf_gen L' ctx' mtx.
Proof.
  intros HL Hc [H1 H2 H3 H4 H5 H6]. split.
  - intros x. rewrite HL. auto.
  - intros t x y. rewrite !HL. eauto.
  - intros t x. rewrite HL, Hc. eauto.
  - intros t x u. rewrite HL, Hc. eauto.
  - done.
  - intros t. rewrite HL, Hc. eauto.
Qed.

(** Removing references. *)
Lemma wf_gen_shrink {L L' ctx ctx' mtx} :
  (∀ x, NoDup (L x) → NoDup (L' x)) →
  (∀ t x, t ∈ L' x → t ∈ L x) →
  (∀ t x, t ∈ L' x → ctx' t = ctx t) →
  (∀ t, ctx' t = Some (CSaved FExit) →
        ctx t = Some (CSaved FExit) ∧ (t ∈ L SFree → t ∈ L' SFree)) →
  wf_gen L ctx mtx → wf_gen L' ctx' mtx.
Proof.
  intros Hn Hs Hc Hf [H1 H2 H3 H4 H5 H6]. split; eauto.
  - intros t x Hx. rewrite (Hc _ _ Hx). eauto.
  - intros t x u Hx. rewrite (Hc _ _ Hx). eauto.
  - intros t Ht. destruct (Hf _ Ht) as [Ht' Hi]. eauto.
Qed.

(** Adding a reference to a thread that is referenced from nowhere,
    possibly with a new context. *)
Lemma wf_gen_push {L L' ctx ctx' mtx} (B : site) (t : nat) (u : context) :
  (∀ x, t ∉ L x) →
  L' B = L B ++ [t] → (∀ x, x ≠ B → L' x = L x) →
  ctx' t = Some u → (∀ t', t' ≠ t → ctx' t' = ctx t') →
  typed_at mtx t B u →
  (u = CSaved FExit → B = SFree) →
  wf_gen L ctx mtx → wf_gen L' ctx' mtx.
Proof.
  intros Hfresh HB Hoth Hu Hctx Hty Hex [H1 H2 H3 H4 H5 H6].
  assert (Hin : ∀ t' x, t' ∈ L' x → (t' = t ∧ x = B) ∨ (t' ∈ L x ∧ t' ≠ t)).
  { intros t' x. destruct (decide (x = B)) as [->|Hne].
    - rewrite HB, elem_of_app, list_elem_of_singleton.
      intros [Hi| ->]; [right|by left]. split; [done|]. intros ->. by eapply Hfresh.
    - rewrite (Hoth _ Hne). intros Hi. right. split; [done|].
      intros ->. by eapply Hfresh. }
  split.
  - intros x. destruct (decide (x = B)) as [->|Hne].
    + rewrite HB. apply NoDup_app. split_and!; [done| |apply NoDup_singleton].
      intros y Hy ->%list_elem_of_singleton. by eapply Hfresh.
    + rewrite (Hoth _ Hne). done.
  - intros t' x y Hx Hy.
    destruct (Hin _ _ Hx) as [[-> ->]|[Hx' ?]], (Hin _ _ Hy) as [[? ->]|[Hy' ?]];
      try done; eauto.
  - intros t' x Hx. destruct (Hin _ _ Hx) as [[-> ->]|[Hx' ?]]; [by rewrite Hu|].
    rewrite Hctx by done. eauto.
  - intros t' x u' Hx. destruct (Hin _ _ Hx) as [[-> ->]|[Hx' ?]].
    + rewrite Hu. by intros [= <-].
    + rewrite Hctx by done. eauto.
  - done.
  - intros t'. destruct (decide (t' = t)) as [->|Hne].
    + rewrite Hu. intros [= ->]. rewrite <- (Hex eq_refl), HB.
      apply elem_of_app. right. by apply list_elem_of_singleton.
    + rewrite Hctx by done. intros Ht'. specialize (H6 _ Ht').
      destruct (decide (SFree = B)) as [<-|HneB].
      * rewrite HB. apply elem_of_app. by left.
      * by rewrite (Hoth _ HneB).
Qed.

(** A thread at the head of a site is referenced from nowhere once it
    is removed from there. *)
Lemma wf_gen_head_fresh {L ctx mtx} (A : site) (t : nat) (q : list nat) :
  wf_gen L ctx mtx → L A = t :: q →
  (t ∉ q) ∧ (∀ x, x ≠ A → t ∉ L x).
Proof.
  intros [H1 H2 H3 H4 H5 H6] HA. split.
  - specialize (H1 A). rewrite HA in H1. apply NoDup_cons in H1. tauto.
  - intros x Hne Hx. apply Hne. eapply H2; [done|]. rewrite HA. by left.
Qed.

(** Writing a mutex. *)
Lemma wf_gen_mutex {L ctx mtx} (m : nat) (mx' : mutex_impl) :
  (∀ t u, t ∈ L SReady → ctx t = Some u → lock_frame u = Some m →
          own_thd <$> mtx !! m = Some (Some t) → own_thd mx' = Some t) →
  (thd_q mx' ≠ [] → own_thd mx' ≠ None) →
  wf_gen L ctx mtx → wf_gen L ctx (<[m := mx']> mtx).
Proof.
  intros Hr Hq [H1 H2 H3 H4 H5 H6]. split; try done.
  - intros t x u Hx Hu. specialize (H4 _ _ _ Hx Hu).
    destruct x; simpl in *; try done.
    intros m' Hm'. destruct (decide (m = m')) as [<-|Hne].
    + rewrite lookup_insert_eq. simpl. f_equal. eauto.
    + rewrite lookup_insert_ne by done. eauto.
  - intros m' mx. destruct (decide (m = m')) as [<-|Hne].
    + rewrite lookup_insert_eq. intros [= <-]. done.
    + rewrite lookup_insert_ne by done. eauto.
Qed.
End wf_gen_lemmas.

(** ** Parking the current thread *)

Lemma elem_of_masked c L t x : t ∈ masked c L x ↔ x ≠ SCpu c ∧ t ∈ L x.
Proof.
  unfold masked. case_decide; [|tauto]. split; [by intros ?%elem_of_nil | tauto].
Qed.

Lemma masked_cpu c L : masked c L (SCpu c) = [].
Proof. unfold masked. by rewrite decide_True. Qed.

Lemma masked_other c L x : x ≠ SCpu c → masked c L x = L x.
Proof. intros. unfold masked. by rewrite decide_False. Qed.

Lemma NoDup_masked c L x : NoDup (L x) → NoDup (masked c L x).
Proof. unfold masked. case_decide; [constructor | done]. Qed.

Lemma site_cpu_elem s c t : t ∈ site_list s (SCpu c) ↔ cur s !! c = Some t.
Proof.
  simpl. destruct (cur s !! c); simpl.
  - rewrite list_elem_of_singleton. naive_solver.
  - split; [by intros ?%elem_of_nil | done].
Qed.

Lemma WF_park c s :
  WF s → wf_gen (masked c (site_list s)) (actx s) (mutexes s).
Proof.
  apply wf_gen_shrink.
  - intros x. apply NoDup_masked.
  - intros t x [_ ?]%elem_of_masked. done.
  - done.
  - intros t Ht. split; [done|]. intros Hi. apply elem_of_masked. done.
Qed.

Lemma parked_fresh c o s :
  WF s → cur s !! c = Some o → ∀ x, o ∉ masked c (site_list s) x.
Proof.
  intros Hwf Hc x [Hne Hx]%elem_of_masked. apply Hne.
  eapply (wf_single Hwf); [done|]. by apply site_cpu_elem.
Qed.

Lemma pctx_self c fr s o : cur s !! c = Some o → pctx c fr s o = Some (CSaved fr).
Proof. intros H. unfold pctx. by rewrite decide_True. Qed.

Lemma pctx_other c fr s t : cur s !! c ≠ Some t → pctx c fr s t = actx s t.
Proof. intros H. unfold pctx. by rewrite decide_False. Qed.

(** Entering [run_next]: the caller has put itself at site [B]. *)
Lemma Pre_intro c fr B o s s2 :
  WF s → cur s !! c = Some o → cur s2 !! c = Some o →
  (∀ t, actx s2 t = actx s t) →
  B ≠ SCpu c →
  site_list s2 B = site_list s B ++ [o] →
  (∀ x, x ≠ B → x ≠ SCpu c → site_list s2 x = site_list s x) →
  typed_at (mutexes s) o B (CSaved fr) →
  (fr = FExit → B = SFree) →
  wf_gen (masked c (site_list s2)) (pctx c fr s2) (mutexes s).
Proof.
  intros Hwf Hc Hc2 Hctx HB Hpush Hoth Hty Hex.
  eapply (wf_gen_push B o (CSaved fr)); [..|by apply (WF_park c)].
  - by apply parked_fresh.
  - rewrite !masked_other by done. done.
  - intros x Hx. destruct (decide (x = SCpu c)) as [->|Hne].
    + by rewrite !masked_cpu.
    + rewrite !masked_other by done. auto.
  - by apply pctx_self.
  - intros t Ht. rewrite pctx_other by congruence. done.
  - done.
  - intros [= ->]. auto.
Qed.

(** ** The context switch keeps the state well-formed *)

Lemma pick_next_inv s t s1 :
  pick_next s = Ok t s1 →
  (∃ q, ready_queue s = t :: q ∧ s1 = set_ready q s) ∨
  (∃ q, ready_queue s = [] ∧ idle_queue s = t :: q ∧ s1 = set_idle q s).
Proof.
  unfold pick_next. destruct (ready_queue s) eqn:Hr.
  - destruct (idle_queue s) eqn:Hi; [done|]. intros [= <- <-]. right. eauto.
  - intros [= <- <-]. left. eauto.
Qed.

Lemma switch_to_spec c fr s s2 :
  Pre c fr s → switch_to c fr s = Ok tt s2 →
  WF s2 ∧ last_free_thread s2 = last_free_thread s ∧ mutexes s2 = mutexes s ∧
  guard s2 = guard s ∧
  ∃ next, cur s2 !! c = Some next ∧
    ∀ u m, actx s2 next = Some u → lock_frame u = Some m →
           own_thd <$> mutexes s2 !! m = Some (Some next).
Proof.
  intros HP. unfold switch_to, current, thread_at, upd_thread. munfold.
  destruct (pick_next s) as [next s1| |] eqn:Hpick; try done. simpl.
  (* the state after the pop and the store to current_thd *)
  set (s1' := set_cur (<[c:=next]> (cur s1)) s1).
  assert (Hs1 : ∃ A q, (A = SReady ∨ A = SIdle) ∧ site_list s A = next :: q ∧
            site_list s1 A = q ∧ (∀ x, x ≠ A → site_list s1 x = site_list s x) ∧
            cur s1 = cur s ∧ threads s1 = threads s ∧ mutexes s1 = mutexes s ∧
            last_free_thread s1 = last_free_thread s ∧ guard s1 = guard s).
  { destruct (pick_next_inv _ _ _ Hpick) as [(q & Hq & ->)|(q & Hr & Hq & ->)].
    - exists SReady, q. split_and!; try done; auto. by intros [].
    - exists SIdle, q. split_and!; try done; auto. by intros []. }
  destruct Hs1 as (A & q & HA & HLA & HL1A & HL1 & Hcur1 & Hthr1 & Hmtx1 & Hfree1 & Hg1).
  assert (HAc : A ≠ SCpu c) by (destruct HA as [-> | ->]; done).
  (* next is referenced from nowhere after the pop *)
  destruct (wf_gen_head_fresh A next q HP) as [Hnq Hnx].
  { by rewrite masked_other. }
  assert (Hty := wf_typed HP next A).
  assert (Hlive : is_Some (pctx c fr s next)).
  { eapply (wf_live HP next A). rewrite masked_other, HLA by done. by left. }
  assert (HW1 : wf_gen (site_list s1') (pctx c fr s) (mutexes s)).
  { destruct Hlive as [u Hu].
    eapply (wf_gen_push (L:=masked c (site_list s1)) (ctx:=pctx c fr s) (SCpu c) next u).
    - intros x [Hxc Hx]%elem_of_masked. destruct (decide (x = A)) as [->|Hne].
      + by rewrite HL1A in Hx.
      + rewrite HL1 in Hx by done. eapply (Hnx x); [done|]. by apply elem_of_masked.
    - rewrite masked_cpu. simpl. by rewrite lookup_insert_eq.
    - intros x Hx. rewrite masked_other by done.
      destruct x; try done. simpl. rewrite lookup_insert_ne; [done|congruence].
    - done.
    - done.
    - done.
    - intros ->. specialize (wf_exited HP _ Hu). intros Hf.
      exfalso. eapply (Hnx SFree); [by destruct HA as [-> | ->]|done].
    - revert HP. apply wf_gen_shrink.
      + intros x. unfold masked. case_decide; [done|].
        destruct (decide (x = A)) as [->|Hne].
        * rewrite HLA, HL1A. by intros [_ ?]%NoDup_cons.
        * by rewrite HL1.
      + intros t x [Hxc Hx]%elem_of_masked. apply elem_of_masked. split; [done|].
        destruct (decide (x = A)) as [->|Hne].
        * rewrite HLA. right. by rewrite HL1A in Hx.
        * by rewrite HL1 in Hx.
      + done.
      + intros t Ht. split; [done|]. intros [_ Hi]%elem_of_masked.
        apply elem_of_masked. split; [done|]. rewrite HL1; [done|].
        by destruct HA as [-> | ->]. }
  assert (Hown : ∀ u m, pctx c fr s next = Some u → lock_frame u = Some m →
                  own_thd <$> mutexes s !! m = Some (Some next)).
  { intros u m Hu Hm. specialize (Hty u). rewrite masked_other, HLA in Hty by done.
    specialize (Hty ltac:(by left) Hu). destruct HA as [-> | ->]; simpl in Hty.
    - by apply Hty.
    - congruence. }
  destruct (threads s1 !! next) as [nx|] eqn:Hnx'; [simpl|done].
  destruct (cur s !! c) as [o|] eqn:Hc.
  - simpl.
    destruct (threads s1 !! o) as [ot|] eqn:Hot; [|done]. intros [= <-]. simpl.
    rewrite Hmtx1, Hfree1, Hg1. split_and!; try done.
    + unfold WF. simpl. rewrite Hmtx1. revert HW1. apply wf_gen_ext.
      * intros x. destruct x; try done. simpl.
        destruct (decide (o = t)) as [<-|Hne].
        -- rewrite lookup_insert_eq, Hot. done.
        -- by rewrite lookup_insert_ne.
      * intros t. unfold actx, pctx. simpl. rewrite Hc.
        case_decide as Ht.
        -- injection Ht as <-. by rewrite lookup_insert_eq.
        -- rewrite lookup_insert_ne by congruence. by rewrite Hthr1.
    + exists next. split; [by rewrite lookup_insert_eq|].
      intros u m Hu. apply Hown. revert Hu. unfold actx, pctx. simpl. rewrite Hc.
      case_decide as Ht.
      * injection Ht as <-. by rewrite lookup_insert_eq.
      * rewrite lookup_insert_ne by congruence. by rewrite Hthr1.
  - simpl. intros [= <-]. simpl.
    rewrite Hmtx1, Hfree1, Hg1. split_and!; try done.
    + unfold WF. simpl. rewrite Hmtx1. revert HW1. apply wf_gen_ext; [done|].
      intros t. unfold actx, pctx. simpl. rewrite Hc, Hthr1. by rewrite decide_False.
    + exists next. split; [by rewrite lookup_insert_eq|].
      intros u m Hu. apply Hown. revert Hu. unfold actx, pctx. simpl.
      rewrite Hc, Hthr1. by rewrite decide_False.
Qed.

(** ** Deferred free, blocking in [lock], resumption *)

Lemma WF_same s s' :
  (∀ x, site_list s' x = site_list s x) → (∀ t, actx s' t = actx s t) →
  mutexes s' = mutexes s → WF s → WF s'.
Proof. intros HL Hc Hm. unfold WF. rewrite Hm. by apply wf_gen_ext. Qed.

Lemma delete_last_free_spec s s' :
  WF s → delete_last_free s = Ok tt s' →
  WF s' ∧ last_free_thread s' = None ∧ cur s' = cur s ∧
  mutexes s' = mutexes s ∧ guard s' = guard s ∧
  (∀ t, last_free_thread s ≠ Some t → threads s' !! t = threads s !! t).
Proof.
  intros Hwf. unfold delete_last_free, thread_at, set_impl_ptr. munfold.
  destruct (last_free_thread s) as [z|] eqn:Hz; simpl.
  - destruct (threads s !! z) as [th|] eqn:Hth; [simpl|done].
    assert (∀ hs, WF (set_last_free None (set_threads (delete z (threads s)) (set_handles hs s)))) as HW.
    { intros hs. unfold WF. simpl. eapply wf_gen_shrink; [| | | |exact Hwf].
      - intros x Hx. destruct x; simpl in *; try done.
        + destruct (decide (z = t)) as [<-|Hne].
          * rewrite lookup_delete_eq. constructor.
          * by rewrite lookup_delete_ne.
        + constructor.
      - intros t x. destruct x; simpl; try done.
        + destruct (decide (z = t0)) as [<-|Hne].
          * rewrite lookup_delete_eq. by intros ?%elem_of_nil.
          * by rewrite lookup_delete_ne.
        + by intros ?%elem_of_nil.
      - intros t x Hx. unfold actx. simpl.
        assert (t ∈ site_list s x ∧ x ≠ SFree) as [Hx' HxF].
        { destruct x; simpl in *; try done.
          - destruct (decide (z = t0)) as [<-|Hne].
            + rewrite lookup_delete_eq in Hx. by apply elem_of_nil in Hx.
            + by rewrite lookup_delete_ne in Hx.
          - by apply elem_of_nil in Hx. }
        rewrite lookup_delete_ne; [done|]. intros <-. apply HxF.
        eapply (wf_single Hwf); [done|]. simpl. rewrite Hz. by left.
      - intros t. unfold actx. simpl. destruct (decide (z = t)) as [<-|Hne].
        + by rewrite lookup_delete_eq.
        + rewrite lookup_delete_ne by done. intros Ht. split; [done|].
          simpl. rewrite Hz. intros ->%list_elem_of_singleton. done. }
    destruct (parent th) as [h|].
    + destruct (handles s !! h); [simpl|done]. intros [= <-]. simpl.
      split_and!; try done. intros t Ht. rewrite lookup_delete_ne; congruence.
    + simpl. intros [= <-]. simpl.
      split_and!; try done.
      * specialize (HW (handles s)). revert HW. apply WF_same; done.
      * intros t Ht. rewrite lookup_delete_ne; congruence.
  - intros [= <-]. simpl. split_and!; try done.
    revert Hwf. apply WF_same; try done. intros []; try done. simpl. by rewrite Hz.
Qed.

Lemma mutex_impl_lock_spec rn c m fr s t :
  rn_ok c rn → lock_frame (CSaved fr) = Some m →
  WF s → last_free_thread s = None → guard s = true → cur s !! c = Some t →
  match mutex_impl_lock rn c m fr s with
  | Ok None s' =>
      WF s' ∧ last_free_thread s' = None ∧ guard s' = true ∧ cur s' !! c = Some t ∧
      own_thd <$> mutexes s' !! m = Some (Some t)
  | Ok (Some r) s' => Inv s' ∧ EndOk c r s'
  | Throw _ _ => False
  | Stuck _ => True
  end.
Proof.
  intros Hrn Hfr Hwf Hfree Hg Hc.
  unfold mutex_impl_lock, mutex_at, self_thd, current, upd_mutex. munfold.
  destruct (mutexes s !! m) as [mx|] eqn:Hm; [simpl|done].
  destruct (own_thd mx) as [o|] eqn:Ho; simpl.
  - rewrite Hc. simpl. rewrite Hm. simpl.
    set (s2 := set_mutexes _ s).
    assert (HP : Pre c fr s2).
    { unfold Pre. simpl. apply wf_gen_mutex.
      - intros t' u Ht' Hu Hl. rewrite Hm. simpl. rewrite Ho. by intros [= <-].
      - simpl. by rewrite Ho.
      - apply (Pre_intro c fr (SMutex m) t s s2); try done.
        + simpl. rewrite lookup_insert_eq, Hm. done.
        + intros x Hx Hxc. destruct x; try done. simpl.
          rewrite lookup_insert_ne; [done|congruence].
        + intros ->. done. }
    specialize (Hrn fr s2 HP Hg). destruct (rn fr s2); done.
  - rewrite Hc, Hm. simpl. split_and!; try done.
    + unfold WF. simpl. apply wf_gen_mutex.
      * intros t' u _ _ _. rewrite Hm. simpl. rewrite Ho. done.
      * done.
      * revert Hwf. apply wf_gen_ext; [|done].
        intros x. destruct x; try done. simpl.
        destruct (decide (m = m0)) as [<-|Hne].
        -- by rewrite lookup_insert_eq, Hm.
        -- by rewrite lookup_insert_ne.
    + by rewrite lookup_insert_eq.
Qed.

Lemma after_run_next_spec rn c fr s t :
  rn_ok c rn →
  WF s → last_free_thread s = None → guard s = true → cur s !! c = Some t →
  (∀ m, lock_frame (CSaved fr) = Some m →
        own_thd <$> mutexes s !! m = Some (Some t)) →
  post c (after_run_next rn c fr s).
Proof.
  intros Hrn Hwf Hfree Hg Hc Hown.
  assert (Hsimple : post c (Ok (RetResumed fr) (set_guard false s)) ↔
            (∀ m, fr = FCvWait m ∨ lock_frame (CSaved fr) = Some m →
               own_thd <$> mutexes s !! m = Some (Some t))).
  { simpl. split.
    - intros [_ He] m Hm. destruct (He fr m eq_refl Hm) as (t' & Ht' & ?).
      simpl in *. congruence.
    - intros H. split.
      + by split_and!.
      + intros fr' m [= <-] Hm. exists t. simpl. eauto. }
  destruct fr; unfold after_run_next, unlock; munfold; simpl;
    try (apply Hsimple; intros m' [?|?]; by auto); try done.
  (* FCvWait m: mtx->lock() *)
  pose proof (mutex_impl_lock_spec rn c m (FCvRelock m) s t Hrn eq_refl Hwf Hfree Hg Hc) as Hl.
    destruct (mutex_impl_lock rn c m (FCvRelock m) s) as [[r|] s1| |]; try done.
    destruct Hl as (Hwf1 & Hfree1 & Hg1 & Hc1 & Ho1). simpl. split.
    + by split_and!.
    + intros fr' m' [= <-] [[= <-]|[=]]. exists t. simpl. eauto.
Qed.

Lemma resume_spec rn c s t :
  rn_ok c rn →
  WF s → guard s = true → cur s !! c = Some t →
  (∀ u m, actx s t = Some u → lock_frame u = Some m →
          own_thd <$> mutexes s !! m = Some (Some t)) →
  post c (resume rn c s).
Proof.
  intros Hrn Hwf Hg Hc Hown.
  unfold resume, self_thd, current, thread_at, unlock. munfold.
  rewrite Hc. simpl.
  destruct (threads s !! t) as [th|] eqn:Hth; [simpl|done].
  pose proof (delete_last_free_spec s) as Hd.
  destruct (uc th) as [fn|fr] eqn:Huc.
  - destruct (delete_last_free s) as [[] s1| |] eqn:Hdel; try done.
    + destruct (Hd s1 Hwf eq_refl) as (Hwf1 & Hfree1 & Hc1 & Hm1 & Hg1 & _).
      simpl. split.
      * by split_and!.
      * intros fr' m [=].
    + revert Hdel. unfold delete_last_free, thread_at, set_impl_ptr. munfold.
      repeat case_match; simpl; try done.
  - destruct (delete_last_free s) as [[] s1| |] eqn:Hdel; try done.
    + destruct (Hd s1 Hwf eq_refl) as (Hwf1 & Hfree1 & Hc1 & Hm1 & Hg1 & _).
      apply (after_run_next_spec rn c fr s1 t); try done; try congruence.
      intros m Hm. rewrite Hm1. apply (Hown (CSaved fr)); [|done].
      unfold actx. by rewrite Hth, <- Huc.
    + revert Hdel. unfold delete_last_free, thread_at, set_impl_ptr. munfold.
      repeat case_match; simpl; try done.
Qed.

Lemma run_next_fuel_ok n c : rn_ok c (run_next_fuel n c).
Proof.
  induction n as [|n IH]; intros fr s HP Hg; [done|].
  simpl. munfold.
  pose proof (switch_to_spec c fr s) as Hs.
  destruct (switch_to c fr s) as [[] s2| |] eqn:Hsw.
  - destruct (Hs s2 HP eq_refl) as (Hwf2 & Hfree2 & Hm2 & Hg2 & next & Hc2 & Hown).
    apply (resume_spec _ c s2 next); try done. congruence.
  - revert Hsw. unfold switch_to, current, thread_at, upd_thread, pick_next. munfold.
    repeat case_match; simpl; try done.
  - done.
Qed.

Lemma run_next_ok c : rn_ok c (run_next c).
Proof. intros fr s HP Hg. by apply run_next_fuel_ok. Qed.

Lemma wf_gen_move {L L' ctx mtx} (A B : site) (t : nat) (q : list nat) :
  L A = t :: q → A ≠ B → A ≠ SFree →
  L' A = q → L' B = L B ++ [t] → (∀ x, x ≠ A → x ≠ B → L' x = L x) →
  (∀ u, ctx t = Some u → typed_at mtx t A u → typed_at mtx t B u) →
  wf_gen L ctx mtx → wf_gen L' ctx mtx.
Proof.
  intros HA HAB HAF HA' HB' Hoth Hty Hwf.
  destruct (wf_gen_head_fresh A t q Hwf HA) as [Hq Hx].
  destruct (wf_live Hwf t A) as [u Hu]; [rewrite HA; by left|].
  eapply (wf_gen_push (L:=λ x, if decide (x = A) then q else L x) (ctx:=ctx) B t u).
  - intros x. case_decide as Hd; [done|]. by apply Hx.
  - rewrite decide_False by done. done.
  - intros x Hne. case_decide as Hd; [by subst|]. by apply Hoth.
  - done.
  - done.
  - apply Hty; [done|]. apply (wf_typed Hwf); [|done]. rewrite HA. by left.
  - intros ->. exfalso. eapply (Hx SFree); [done|]. by apply (wf_exited Hwf).
  - revert Hwf. apply wf_gen_shrink.
    + intros x. case_decide as Hd; [|done]. subst. rewrite HA. by intros [_ ?]%NoDup_cons.
    + intros t' x. case_decide as Hd; [|done]. subst. rewrite HA. by right.
    + done.
    + intros t' Ht'. split; [done|]. by rewrite decide_False.
Qed.

(** ** The entry points keep the invariant *)

Lemma wakeup_one_cpu_inv s s' :
  wakeup_one_cpu s = Ok tt s' →
  ∃ q l, s' = set_suspended q (set_ipi_log l s).
Proof.
  unfold wakeup_one_cpu. intros H.
  assert (Hid : s = set_suspended (suspended_queue s) (set_ipi_log (ipi_log s) s))
    by by destruct s.
  destruct (ready_queue s), (suspended_queue s) eqn:Hs; injection H as <-; eauto.
Qed.

Lemma wakeup_one_cpu_total s : ∃ s', wakeup_one_cpu s = Ok tt s'.
Proof. unfold wakeup_one_cpu. repeat case_match; eauto. Qed.

Lemma post_post_ev c res : post c res → post_ev c res.
Proof. by destruct res. Qed.

Lemma lock_guard_spec c body s :
  Inv s →
  (Held (set_guard true s) →
   match body (set_guard true s) with
   | Ok None s2 | Throw _ s2 => WF s2 ∧ last_free_thread s2 = None
   | Ok (Some r) s2 => Inv s2 ∧ EndOk c r s2
   | Stuck _ => True
   end) →
  post_ev c (lock_guard body s).
Proof.
  intros (Hwf & Hg & Hfree) Hb. unfold lock_guard, lock. rewrite Hg.
  specialize (Hb ltac:(by split_and!)).
  destruct (body (set_guard true s)) as [[r|] s2|e s2|]; simpl; try done.
  - destruct Hb. split; [by split_and!|]. intros ?? [=].
  - destruct Hb. by split_and!.
Qed.

Lemma mutex_impl_unlock_spec c m s :
  WF s →
  match mutex_impl_unlock c m s with
  | Ok _ s' =>
      WF s' ∧ cur s' = cur s ∧ last_free_thread s' = last_free_thread s ∧
      guard s' = guard s ∧ cvs s' = cvs s ∧ (∀ t, actx s' t = actx s t)
  | Throw _ s' => s' = s
  | Stuck _ => True
  end.
Proof.
  intros Hwf.
  destruct (mutexes s !! m) as [mx|] eqn:Hm.
  2:{ unfold mutex_impl_unlock, mutex_at. munfold. by rewrite Hm. }
  destruct (decide (own_thd mx = cur s !! c)) as [Ho|Ho].
  2:{ by rewrite (mutex_impl_unlock_not_owner c m s mx). }
  assert (Hnr : ∀ t u, t ∈ ready_queue s → actx s t = Some u →
            lock_frame u = Some m → False).
  { intros t u Ht Hu Hl.
    pose proof (wf_typed Hwf t SReady u Ht Hu m Hl) as Hown.
    rewrite Hm in Hown. simpl in Hown. rewrite Ho in Hown. injection Hown as Hc.
    assert (SReady = SCpu c); [|done].
    apply (wf_single Hwf t); [done|]. by apply site_cpu_elem. }
  destruct (thd_q mx) as [|t q] eqn:Hq.
  - rewrite (mutex_impl_unlock_free c m s mx) by done. split_and!; try done.
    unfold WF. simpl. apply wf_gen_mutex.
    + intros t u Ht Hu Hl _. exfalso. eauto.
    + done.
    + revert Hwf. apply wf_gen_ext; [|done]. intros x. destruct x; try done. simpl.
      destruct (decide (m = m0)) as [<-|Hne].
      * by rewrite lookup_insert_eq, Hm.
      * by rewrite lookup_insert_ne.
  - rewrite (mutex_impl_unlock_handoff c m s mx t q) by done.
    destruct (wakeup_one_cpu_total (handed_off m t q s)) as [s' Hs']. rewrite Hs'.
    destruct (wakeup_one_cpu_inv _ _ Hs') as (q' & l' & ->). simpl.
    split_and!; try done.
    unfold WF. simpl.
    eapply (wf_gen_move (L:=site_list s) (SMutex m) SReady t q).
    + simpl. by rewrite Hm.
    + done.
    + done.
    + simpl. by rewrite lookup_insert_eq.
    + done.
    + intros x Hx1 Hx2. destruct x; try done. simpl.
      rewrite lookup_insert_ne; [done|congruence].
    + simpl. intros u Hu Hl m' Hm'. assert (m' = m) as -> by congruence.
      by rewrite lookup_insert_eq.
    + apply wf_gen_mutex; [|done|done].
      intros t' u Ht' Hu Hl _. exfalso. eauto.
Qed.

Lemma WF_fresh_thread s t :
  WF s → threads s !! t = None → ∀ x, t ∉ site_list s x.
Proof.
  intros Hwf Ht x Hx. destruct (wf_live Hwf t x Hx) as [u Hu].
  unfold actx in Hu. by rewrite Ht in Hu.
Qed.

Lemma thread_ctor_inv c h fn t s : Inv s → post_ev c (thread_ctor h fn t s).
Proof.
  intros HI. apply lock_guard_spec; [done|]. intros (Hwf & Hfree & Hg).
  munfold. simpl.
  destruct (handles s !! h); [done|]. destruct (threads s !! t) eqn:Ht; [done|].
  assert (Hfr := WF_fresh_thread s t Hwf Ht).
  unfold thread_impl_ctor, idle_push, ready_push. munfold.
  destruct fn as [| |f]; simpl; try done.
  - split; [|done]. unfold WF. simpl.
    eapply (wf_gen_push (L:=site_list s) (ctx:=actx s) SIdle t (CStart IdleFn)); try done.
    + intros x Hx. destruct x; try done. simpl.
      destruct (decide (t = t0)) as [<-|Hne].
      * by rewrite lookup_insert_eq, Ht.
      * by rewrite lookup_insert_ne.
    + unfold actx. simpl. by rewrite lookup_insert_eq.
    + intros t' Ht'. unfold actx. simpl. by rewrite lookup_insert_ne.
  - match goal with |- context [wakeup_one_cpu ?s0] =>
      destruct (wakeup_one_cpu_total s0) as [s' Hs']; rewrite Hs';
      destruct (wakeup_one_cpu_inv _ _ Hs') as (q' & l' & ->) end.
    simpl. split; [|done]. unfold WF. simpl.
    eapply (wf_gen_push (L:=site_list s) (ctx:=actx s) SReady t (CStart (UserFn f))); try done.
    + intros x Hx. destruct x; try done. simpl.
      destruct (decide (t = t0)) as [<-|Hne].
      * by rewrite lookup_insert_eq, Ht.
      * by rewrite lookup_insert_ne.
    + unfold actx. simpl. by rewrite lookup_insert_eq.
    + intros t' Ht'. unfold actx. simpl. by rewrite lookup_insert_ne.
Qed.

Lemma upd_thread_parent_WF s t th p :
  WF s → threads s !! t = Some th →
  WF (set_threads (<[t := set_parent p th]> (threads s)) s).
Proof.
  intros Hwf Ht. revert Hwf. apply WF_same; [| |done].
  - intros x. destruct x; try done. simpl. destruct (decide (t = t0)) as [<-|Hne].
    + by rewrite lookup_insert_eq, Ht.
    + by rewrite lookup_insert_ne.
  - intros t'. unfold actx. simpl. destruct (decide (t = t')) as [<-|Hne].
    + by rewrite lookup_insert_eq, Ht.
    + by rewrite lookup_insert_ne.
Qed.

Lemma thread_dtor_inv c h s : Inv s → post_ev c (thread_dtor h s).
Proof.
  intros HI. apply lock_guard_spec; [done|]. intros (Hwf & Hfree & Hg).
  unfold impl_ptr, upd_thread. munfold. simpl.
  destruct (handles s !! h) as [[t|]|]; simpl; try done.
  destruct (threads s !! t) as [th|] eqn:Ht; simpl; [|done].
  split; [|done]. by apply (upd_thread_parent_WF s t th None).
Qed.

Lemma thread_move_ctor_inv c h other s : Inv s → post_ev c (thread_move_ctor h other s).
Proof.
  intros HI. apply lock_guard_spec; [done|]. intros (Hwf & Hfree & Hg).
  unfold impl_ptr, set_impl_ptr, upd_thread. munfold. simpl.
  destruct (handles s !! h) eqn:Hh; [done|]. simpl.
  destruct (handles s !! other) as [p|] eqn:Ho; simpl; [|done].
  destruct (decide (h = other)) as [->|Hne].
  - congruence.
  - rewrite lookup_insert_ne, Ho by done. simpl.
    rewrite lookup_insert_ne, lookup_insert_eq by done. simpl.
    destruct p as [t|]; simpl; [|done].
    destruct (threads s !! t) as [th|] eqn:Ht; simpl; [|done].
    split; [|done]. by apply (upd_thread_parent_WF s t th (Some h)).
Qed.

Lemma thread_move_assign_inv c h other s : Inv s → post_ev c (thread_move_assign h other s).
Proof.
  intros HI. apply lock_guard_spec; [done|]. intros (Hwf & Hfree & Hg).
  unfold impl_ptr, set_impl_ptr, upd_thread. munfold. simpl.
  destruct (handles s !! other) as [p|] eqn:Ho; simpl; [|done].
  destruct (handles s !! h) as [p0|] eqn:Hh; simpl; [|done].
  destruct (decide (h = other)) as [->|Hne].
  - rewrite lookup_insert_eq. simpl. rewrite lookup_insert_eq. simpl. done.
  - rewrite lookup_insert_ne, Ho by done. simpl.
    rewrite lookup_insert_ne, lookup_insert_eq by done. simpl.
    destruct p as [t|]; simpl; [|done].
    destruct (threads s !! t) as [th|] eqn:Ht; simpl; [|done].
    split; [|done]. by apply (upd_thread_parent_WF s t th (Some h)).
Qed.

Lemma enter_Pre c fr s : WF s → cur s !! c = None → Pre c fr s.
Proof.
  intros Hwf Hc. unfold Pre. revert Hwf. apply wf_gen_ext.
  - intros x. unfold masked. case_decide; [|done]. subst. simpl. by rewrite Hc.
  - intros t. apply pctx_other. by rewrite Hc.
Qed.

Lemma thread_join_inv c h s : Inv s → post_ev c (thread_join c h s).
Proof.
  intros HI. apply lock_guard_spec; [done|]. intros (Hwf & Hfree & Hg).
  unfold impl_ptr, self_thd, current, upd_thread. munfold. simpl.
  destruct (handles s !! h) as [[t|]|]; simpl; try done.
  destruct (cur s !! c) as [me|] eqn:Hc; simpl; [|done].
  destruct (threads s !! t) as [th|] eqn:Ht; simpl; [|done].
  match goal with |- context [run_next c FJoin ?s0] => set (s2 := s0) end.
  assert (HP : Pre c FJoin s2).
  { apply (Pre_intro c FJoin (SJoin t) me (set_guard true s) s2); try done.
    - intros t'. unfold actx. simpl. destruct (decide (t = t')) as [<-|Hne].
      + by rewrite lookup_insert_eq, Ht.
      + by rewrite lookup_insert_ne.
    - simpl. by rewrite lookup_insert_eq, Ht.
    - intros x Hx Hxc. destruct x; try done. simpl.
      rewrite lookup_insert_ne; [done|congruence]. }
  pose proof (run_next_ok c FJoin s2 HP Hg) as Hr.
  by destruct (run_next c FJoin s2).
Qed.

Lemma push_self_inv c fr B s s2 o :
  Held s → cur s !! c = Some o → cur s2 !! c = Some o →
  (∀ t, actx s2 t = actx s t) → mutexes s2 = mutexes s → guard s2 = true →
  B ≠ SCpu c →
  site_list s2 B = site_list s B ++ [o] →
  (∀ x, x ≠ B → x ≠ SCpu c → site_list s2 x = site_list s x) →
  typed_at (mutexes s) o B (CSaved fr) →
  (fr = FExit → B = SFree) →
  post c (run_next c fr s2).
Proof.
  intros (Hwf & Hfree & Hg) Hc Hc2 Hctx Hm Hg2 HB HLB Hoth Hty Hex.
  apply run_next_ok; [|done]. unfold Pre. rewrite Hm.
  by apply (Pre_intro c fr B o s s2).
Qed.

Lemma thread_yield_inv c s : Inv s → post_ev c (thread_yield c s).
Proof.
  intros HI. apply lock_guard_spec; [done|]. intros HH.
  unfold self_thd, current, ready_push. munfold. simpl.
  destruct (ready_queue s) eqn:Hq; [by destruct HH as (?&?&?)|]. simpl.
  destruct (cur s !! c) as [me|] eqn:Hc; simpl; [|done].
  match goal with |- context [run_next c ?fr ?s0] =>
    assert (Hr : post c (run_next c fr s0));
    [ apply (push_self_inv c fr SReady (set_guard true s) s0 me HH); try done;
      by intros []
    | by destruct (run_next c fr s0) ]
  end.
Qed.

Lemma timer_handler_inv c s : Inv s → post_ev c (timer_handler c s).
Proof.
  intros HI. apply lock_guard_spec; [done|]. intros HH.
  unfold self_thd, current, ready_push. munfold. simpl.
  destruct (ready_queue s) eqn:Hq; [by destruct HH as (?&?&?)|]. simpl.
  destruct (cur s !! c) as [me|] eqn:Hc; simpl; [|done].
  match goal with |- context [run_next c ?fr ?s0] =>
    assert (Hr : post c (run_next c fr s0));
    [ apply (push_self_inv c fr SReady (set_guard true s) s0 me HH); try done;
      by intros []
    | by destruct (run_next c fr s0) ]
  end.
Qed.

Lemma idle_func_inv c s : Inv s → post_ev c (idle_func c s).
Proof.
  intros (Hwf & Hg & Hfree). apply post_post_ev.
  unfold idle_func, lock, self_thd, current, idle_push. munfold. rewrite Hg. simpl.
  destruct (cur s !! c) as [me|] eqn:Hc; simpl; [|done].
  match goal with |- context [run_next c ?fr ?s0] =>
    apply (push_self_inv c fr SIdle (set_guard true s) s0 me) end; try done.
  by intros [].
Qed.

Lemma cpu_init_enter_inv c s :
  Inv s → cur s !! c = None → post_ev c (cpu_init_enter c s).
Proof.
  intros (Hwf & Hg & Hfree) Hc. apply post_post_ev.
  unfold cpu_init_enter, lock. munfold. rewrite Hg. simpl.
  apply run_next_ok; [|done]. by apply enter_Pre.
Qed.

Lemma mutex_ctor_inv c m s : Inv s → post_ev c (mutex_ctor m s).
Proof.
  intros HI. apply lock_guard_spec; [done|]. intros (Hwf & Hfree & Hg).
  munfold. simpl. destruct (mutexes s !! m) eqn:Hm; [done|]. simpl.
  split; [|done]. unfold WF. simpl. apply wf_gen_mutex.
  - intros t u _ _ _. by rewrite Hm.
  - done.
  - revert Hwf. apply wf_gen_ext; [|done]. intros x. destruct x; try done. simpl.
    destruct (decide (m = m0)) as [<-|Hne].
    + by rewrite lookup_insert_eq, Hm.
    + by rewrite lookup_insert_ne.
Qed.

Lemma mutex_lock_inv c m s :
  Inv s → is_Some (cur s !! c) → post_ev c (mutex_lock c m s).
Proof.
  intros HI [t Hc]. apply lock_guard_spec; [done|]. intros (Hwf & Hfree & Hg).
  pose proof (mutex_impl_lock_spec (run_next c) c m (FMutexLock m) (set_guard true s) t
                (run_next_ok c) eq_refl Hwf Hfree Hg Hc) as Hl.
  destruct (mutex_impl_lock _ _ _ _ _) as [[r|] s1| |]; try done.
  by destruct Hl as (? & ? & _).
Qed.

Lemma mutex_unlock_inv c m s : Inv s → post_ev c (mutex_unlock c m s).
Proof.
  intros HI. apply lock_guard_spec; [done|]. intros (Hwf & Hfree & Hg).
  munfold. pose proof (mutex_impl_unlock_spec c m (set_guard true s) Hwf) as Hu.
  destruct (mutex_impl_unlock c m (set_guard true s)) as [[] s1|e s1|]; simpl; try done.
  - destruct Hu as (? & ? & Hf & _). split; [done|]. by rewrite Hf.
  - by subst.
Qed.

Lemma cv_ctor_inv c v s : Inv s → post_ev c (cv_ctor v s).
Proof.
  intros HI. apply lock_guard_spec; [done|]. intros (Hwf & Hfree & Hg).
  munfold. simpl. destruct (cvs s !! v) eqn:Hv; [done|]. simpl.
  split; [|done]. revert Hwf. apply WF_same; try done.
  intros x. destruct x; try done. simpl. destruct (decide (v = v0)) as [<-|Hne].
  - by rewrite lookup_insert_eq, Hv.
  - by rewrite lookup_insert_ne.
Qed.

Lemma stable_refl s : stable s s.
Proof. by split_and!. Qed.

Lemma stable_trans s1 s2 s3 : stable s1 s2 → stable s2 s3 → stable s1 s3.
Proof.
  intros (?&?&?&?&?&Ha&Ha') (?&?&?&?&?&Hb&Hb'). split_and!; congruence.
Qed.

(** One wake-up of a condition-variable waiter. *)
Lemma cv_wake_one v t q cv s :
  WF s → cvs s !! v = Some cv → cv_thd_q cv = t :: q →
  ∃ s', (ready_push t;; upd_cv v (λ cv, CvImpl (tail (cv_thd_q cv)));; wakeup_one_cpu) s
        = Ok tt s' ∧
    WF s' ∧ stable s s' ∧ cvs s' !! v = Some (CvImpl q).
Proof.
  intros Hwf Hv Hq. unfold ready_push, upd_cv. munfold. simpl. rewrite Hv. simpl.
  match goal with |- context [wakeup_one_cpu ?s0] =>
    destruct (wakeup_one_cpu_total s0) as [s' Hs']; rewrite Hs';
    destruct (wakeup_one_cpu_inv _ _ Hs') as (q' & l' & ->) end.
  eexists. split; [done|]. simpl. rewrite Hq. simpl. split_and!.
  - unfold WF. simpl.
    eapply (wf_gen_move (L:=site_list s) (SCv v) SReady t q); try done.
    + simpl. by rewrite Hv.
    + simpl. by rewrite lookup_insert_eq.
    + intros x ??. destruct x; try done. simpl. rewrite lookup_insert_ne; [done|congruence].
    + simpl. intros u _ Hu m. by rewrite Hu.
  - by split_and!.
  - by rewrite lookup_insert_eq.
Qed.

Lemma cv_impl_signal_spec v s :
  WF s →
  match cv_impl_signal v s with
  | Ok _ s' => WF s' ∧ stable s s'
  | Throw _ _ => False
  | Stuck _ => True
  end.
Proof.
  intros Hwf. unfold cv_impl_signal, cv_at. munfold.
  destruct (cvs s !! v) as [cv|] eqn:Hv; [simpl|done].
  destruct (cv_thd_q cv) as [|t q] eqn:Hq.
  - split; [done|apply stable_refl].
  - destruct (cv_wake_one v t q cv s Hwf Hv Hq) as (s' & Hs' & ? & ? & _).
    revert Hs'. unfold ready_push. munfold. simpl. intros ->. done.
Qed.

Lemma cv_broadcast_loop_spec v q : ∀ s cv,
  WF s → cvs s !! v = Some cv → cv_thd_q cv = q →
  match cv_broadcast_loop v q s with
  | Ok _ s' => WF s' ∧ stable s s'
  | Throw _ _ => False
  | Stuck _ => True
  end.
Proof.
  induction q as [|t q IH]; intros s cv Hwf Hv Hq; simpl.
  - split; [done|apply stable_refl].
  - destruct (cv_wake_one v t q cv s Hwf Hv Hq) as (s' & Hs' & Hwf' & Hst & Hv').
    revert Hs'. unfold ready_push. munfold. simpl.
    destruct (upd_cv v _ _) as [[] s2| |]; try done.
    intros ->. specialize (IH s' _ Hwf' Hv' eq_refl).
    destruct (cv_broadcast_loop v q s') as [[] s3| |]; try done.
    destruct IH. split; [done|]. by eapply stable_trans.
Qed.

Lemma cv_signal_inv c v s : Inv s → post_ev c (cv_signal v s).
Proof.
  intros HI. apply lock_guard_spec; [done|]. intros (Hwf & Hfree & Hg).
  munfold. pose proof (cv_impl_signal_spec v (set_guard true s) Hwf) as Hu.
  destruct (cv_impl_signal v (set_guard true s)) as [[] s1|e s1|]; simpl; try done.
  destruct Hu as (? & ? & Hf & _). split; [done|]. by rewrite Hf.
Qed.

Lemma cv_broadcast_inv c v s : Inv s → post_ev c (cv_broadcast v s).
Proof.
  intros HI. apply lock_guard_spec; [done|]. intros (Hwf & Hfree & Hg).
  unfold cv_impl_broadcast, cv_at. munfold. simpl.
  destruct (cvs s !! v) as [cv|] eqn:Hv; [simpl|done].
  pose proof (cv_broadcast_loop_spec v _ (set_guard true s) cv Hwf Hv eq_refl) as Hu.
  destruct (cv_broadcast_loop v _ (set_guard true s)) as [[] s1|e s1|]; simpl; try done.
  destruct Hu as (? & ? & Hf & _). split; [done|]. by rewrite Hf.
Qed.

Lemma cv_wait_inv c v m s : Inv s → post_ev c (cv_wait c v m s).
Proof.
  intros HI. apply lock_guard_spec; [done|]. intros (Hwf & Hfree & Hg).
  unfold cv_impl_wait. munfold.
  pose proof (mutex_impl_unlock_spec c m (set_guard true s) Hwf) as Hu.
  destruct (mutex_impl_unlock c m (set_guard true s)) as [[] s1|e s1|]; simpl; try done.
  2:{ by subst. }
  destruct Hu as (Hwf1 & Hc1 & Hf1 & Hg1 & Hcv1 & Hctx1).
  unfold self_thd, current, upd_cv. munfold. simpl.
  destruct (cur s1 !! c) as [me|] eqn:Hc; simpl; [|done].
  destruct (cvs s1 !! v) as [cv|] eqn:Hv; simpl; [|done].
  match goal with |- context [run_next c ?fr ?s0] =>
    assert (Hr : post c (run_next c fr s0));
    [ apply (push_self_inv c fr (SCv v) s1 s0 me); try done
    | by destruct (run_next c fr s0) ]
  end.
  - split_and!; try done; congruence.
  - simpl. by rewrite lookup_insert_eq, Hv.
  - intros x ??. destruct x; try done. simpl. rewrite lookup_insert_ne; [done|congruence].
Qed.

Lemma wake_joiners_spec o q : ∀ s th,
  WF s → threads s !! o = Some th → join_thd th = q →
  match wake_joiners o q s with
  | Ok _ s' => WF s' ∧ stable s s'
  | Throw _ _ => False
  | Stuck _ => True
  end.
Proof.
  induction q as [|t q IH]; intros s th Hwf Ho Hq; simpl.
  - split; [done|apply stable_refl].
  - unfold ready_push, upd_thread. munfold. simpl.
    match goal with |- context [wakeup_one_cpu ?s0] =>
      destruct (wakeup_one_cpu_total s0) as [s' Hs']; rewrite Hs';
      destruct (wakeup_one_cpu_inv _ _ Hs') as (q' & l' & ->) end.
    simpl. rewrite Ho. simpl.
    match goal with |- context [wake_joiners o q ?s0] => set (s1 := s0) end.
    assert (Hwf1 : WF s1).
    { unfold WF. simpl.
      eapply wf_gen_ext; [reflexivity| |].
      2:{ eapply (wf_gen_move (L:=site_list s) (L':=site_list s1) (SJoin o) SReady t q);
            [..|exact Hwf]; try done.
          - simpl. rewrite Ho. done.
          - simpl. rewrite lookup_insert_eq. simpl. by rewrite Hq.
          - intros x ??. destruct x; try done. simpl.
            rewrite lookup_insert_ne; [done|congruence].
          - simpl. intros u _ Hu m. by rewrite Hu. }
      intros t'. unfold actx. simpl. destruct (decide (o = t')) as [<-|Hne].
      - by rewrite lookup_insert_eq, Ho.
      - by rewrite lookup_insert_ne. }
    assert (Hst : stable s s1).
    { split_and!; try done.
      - intros t'. unfold actx. simpl. destruct (decide (o = t')) as [<-|Hne].
        + by rewrite lookup_insert_eq, Ho.
        + by rewrite lookup_insert_ne.
      - intros t'. simpl. destruct (decide (o = t')) as [<-|Hne].
        + by rewrite lookup_insert_eq, Ho.
        + by rewrite lookup_insert_ne. }
    specialize (IH s1 (set_join_thd (tail (join_thd th)) th) Hwf1).
    simpl in IH. rewrite lookup_insert_eq, Hq in IH. specialize (IH eq_refl eq_refl).
    destruct (wake_joiners o q s1) as [[] s3| |]; try done.
    destruct IH. split; [done|]. by eapply stable_trans.
Qed.

Lemma thread_exit_steps_spec c s :
  Inv s →
  match thread_exit_steps c s with
  | Ok o s' => Pre c FExit s' ∧ guard s' = true ∧ cur s' !! c = Some o ∧
               last_free_thread s' = Some o
  | Throw _ _ => False
  | Stuck _ => True
  end.
Proof.
  intros (Hwf & Hg & Hfree).
  unfold thread_exit_steps, lock, self_thd, current, thread_at. munfold.
  rewrite Hg. simpl.
  destruct (cur s !! c) as [o|] eqn:Hc; simpl; [|done].
  destruct (threads s !! o) as [th|] eqn:Ho; simpl; [|done].
  pose proof (wake_joiners_spec o _ (set_guard true s) th Hwf Ho eq_refl) as Hw.
  destruct (wake_joiners o _ (set_guard true s)) as [[] s1| |]; try done.
  destruct Hw as (Hwf1 & Hc1 & Hf1 & Hg1 & Hm1 & Hh1 & Hctx1 & Hp1). simpl in *.
  destruct (threads s1 !! o) as [th1|] eqn:Ho1; simpl; [|done].
  assert (HP : ∀ hs, Pre c FExit (set_last_free (Some o) (set_handles hs s1))).
  { intros hs. unfold Pre. simpl.
    apply (Pre_intro c FExit SFree o s1); try done.
    - congruence.
    - simpl. congruence.
    - simpl. by rewrite Hf1, Hfree.
    - by intros []. }
  unfold set_impl_ptr. munfold.
  destruct (parent th1) as [h|]; simpl.
  - destruct (handles s1 !! h); simpl; [|done].
    split_and!; try done. congruence.
  - split_and!; try done; try congruence. apply (HP (handles s1)).
Qed.

Lemma thread_start_exit_inv c s : Inv s → post_ev c (thread_start_exit c s).
Proof.
  intros HI. apply post_post_ev. unfold thread_start_exit. munfold.
  pose proof (thread_exit_steps_spec c s HI) as He.
  destruct (thread_exit_steps c s) as [o s1| |]; try done.
  destruct He as (HP & Hg & _). by apply run_next_ok.
Qed.

Lemma exec_inv c e s :
  Inv s → enabled c e s = true → post_ev c (exec c e s).
Proof.
  intros HI He. destruct e; simpl.
  - by apply thread_ctor_inv.
  - by apply thread_dtor_inv.
  - by apply thread_move_ctor_inv.
  - by apply thread_move_assign_inv.
  - by apply thread_join_inv.
  - by apply thread_yield_inv.
  - by apply mutex_ctor_inv.
  - apply mutex_lock_inv; [done|]. unfold enabled in He.
    destruct (cur s !! c); [eauto|done].
  - by apply mutex_unlock_inv.
  - by apply cv_ctor_inv.
  - by apply cv_wait_inv.
  - by apply cv_signal_inv.
  - by apply cv_broadcast_inv.
  - by apply timer_handler_inv.
  - by apply thread_start_exit_inv.
  - by apply idle_func_inv.
  - apply cpu_init_enter_inv; [done|]. unfold enabled in He.
    by destruct (cur s !! c).
Qed.

(** ** The invariant holds in every reachable state *)

Lemma Inv_init : Inv init_state.
Proof.
  split; [|done]. split; simpl.
  - intros []; simpl; rewrite ?lookup_empty; simpl; constructor.
  - intros t x y Hx. exfalso. destruct x; simpl in Hx; rewrite ?lookup_empty in Hx;
      by apply elem_of_nil in Hx.
  - intros t x Hx. exfalso. destruct x; simpl in Hx; rewrite ?lookup_empty in Hx;
      by apply elem_of_nil in Hx.
  - intros t x u Hx. exfalso. destruct x; simpl in Hx; rewrite ?lookup_empty in Hx;
      by apply elem_of_nil in Hx.
  - intros m mx. by rewrite lookup_empty.
  - intros t. unfold actx. simpl. by rewrite lookup_empty.
Qed.

Lemma step_Inv s s' : Inv s → step s s' → Inv s'.
Proof.
  intros HI [c e r s2 He Hx|c e x s2 He Hx];
    pose proof (exec_inv c e s HI He) as Hp; rewrite Hx in Hp; simpl in Hp; tauto.
Qed.

Theorem reachable_Inv s : reachable s → Inv s.
Proof. induction 1; eauto using Inv_init, step_Inv. Qed.

(** ** [run_next] needs no fuel *)

Lemma switch_to_queued c fr s s2 :
  switch_to c fr s = Ok tt s2 → S (queued s2) = queued s.
Proof.
  unfold switch_to, current, thread_at, upd_thread. munfold.
  destruct (pick_next s) as [next s1| |] eqn:Hpick; try done. simpl.
  assert (S (queued s1) = queued s) as <-.
  { destruct (pick_next_inv _ _ _ Hpick) as [(q & Hq & ->)|(q & Hr & Hq & ->)];
      unfold queued; simpl; rewrite Hq; simpl; lia. }
  destruct (threads s1 !! next); [simpl|done].
  destruct (cur s !! c) as [o|]; simpl.
  - destruct (threads s1 !! o); [|done]. by intros [= <-].
  - by intros [= <-].
Qed.

Lemma delete_last_free_queued s s' :
  delete_last_free s = Ok tt s' → queued s' = queued s.
Proof.
  unfold delete_last_free, thread_at, set_impl_ptr. munfold.
  repeat case_match; simplify_eq; simpl; try done; by intros [= <-].
Qed.

Lemma mutex_impl_lock_ext rn rn' c m fr s :
  (∀ fr' s', queued s' = queued s → rn fr' s' = rn' fr' s') →
  mutex_impl_lock rn c m fr s = mutex_impl_lock rn' c m fr s.
Proof.
  intros H. unfold mutex_impl_lock, mutex_at, self_thd, current, upd_mutex. munfold.
  destruct (mutexes s !! m) as [mx|] eqn:Hm; simpl; [|done].
  destruct (own_thd mx); simpl; [|done].
  destruct (cur s !! c); simpl; [|done].
  rewrite Hm. simpl. by rewrite H.
Qed.

Lemma resume_ext rn rn' c s :
  (∀ fr' s', queued s' = queued s → rn fr' s' = rn' fr' s') →
  resume rn c s = resume rn' c s.
Proof.
  intros H. unfold resume, self_thd, current, thread_at. munfold.
  destruct (cur s !! c); simpl; [|done].
  destruct (threads s !! n); simpl; [|done].
  destruct (uc t); [done|].
  destruct (delete_last_free s) as [[] s1| |] eqn:Hd; [|done..].
  destruct fr; simpl; try done. munfold.
  rewrite (mutex_impl_lock_ext rn rn'); [done|].
  intros fr' s' Hs'. apply H. rewrite Hs'. by apply delete_last_free_queued.
Qed.

Lemma run_next_fuel_enough n : ∀ n' c fr s,
  queued s < n → queued s < n' →
  run_next_fuel n c fr s = run_next_fuel n' c fr s.
Proof.
  induction n as [|n IH]; intros [|n'] c fr s Hn Hn'; try lia.
  simpl. munfold. destruct (switch_to c fr s) as [[] s2| |] eqn:Hs; [|done..].
  apply switch_to_queued in Hs. apply resume_ext.
  intros fr' s' Hs'. apply IH; lia.
Qed.

(** [run_next] switches and then runs the thread switched to, which may
    call [run_next] again. *)
Lemma run_next_unfold c fr s :
  run_next c fr s = (switch_to c fr;; resume (run_next c) c) s.
Proof.
  unfold run_next at 1. simpl. munfold.
  destruct (switch_to c fr s) as [[] s2| |] eqn:Hs; [|done..].
  apply switch_to_queued in Hs. apply resume_ext.
  intros fr' s' Hs'. unfold run_next. apply run_next_fuel_enough; fold (queued s') (queued s); lia.
Qed.

Lemma mutex_impl_lock_fuel rn c m fr s :
  (∀ fr' s', queued s' = queued s → rn fr' s' ≠ Stuck OutOfFuel) →
  mutex_impl_lock rn c m fr s ≠ Stuck OutOfFuel.
Proof.
  intros H. unfold mutex_impl_lock, mutex_at, self_thd, current, upd_mutex. munfold.
  destruct (mutexes s !! m) as [mx|] eqn:Hm; simpl; [|done].
  destruct (own_thd mx); simpl.
  - destruct (cur s !! c); simpl; [|done].
    rewrite Hm. simpl.
    match goal with |- context [rn fr ?s0] =>
      pose proof (H fr s0 eq_refl) as Hr; destruct (rn fr s0) end; simpl; try done.
    intros [= ->]. by apply Hr.
  - by rewrite Hm.
Qed.

Lemma resume_fuel rn c s :
  (∀ fr' s', queued s' = queued s → rn fr' s' ≠ Stuck OutOfFuel) →
  resume rn c s ≠ Stuck OutOfFuel.
Proof.
  intros H. unfold resume, self_thd, current, thread_at. munfold.
  destruct (cur s !! c); simpl; [|done].
  destruct (threads s !! n); simpl; [|done].
  assert (Hd : delete_last_free s ≠ Stuck OutOfFuel).
  { unfold delete_last_free, thread_at, set_impl_ptr. munfold.
    repeat case_match; simpl; try done; by simplify_eq. }
  destruct (uc t).
  - destruct (delete_last_free s) as [[] s1| |[]] eqn:Hdel; try done.
  - destruct (delete_last_free s) as [[] s1| |[]] eqn:Hdel; try done.
    destruct fr; simpl; try done. munfold.
    pose proof (mutex_impl_lock_fuel rn c m (FCvRelock m) s1) as Hl.
    destruct (mutex_impl_lock rn c m (FCvRelock m) s1) as [[r|] s2| |[]]; try done.
    exfalso. apply Hl; [|done]. intros fr' s' Hs'. apply H. rewrite Hs'.
    by apply delete_last_free_queued.
Qed.

Lemma run_next_fuel_total n : ∀ c fr s,
  queued s < n → run_next_fuel n c fr s ≠ Stuck OutOfFuel.
Proof.
  induction n as [|n IH]; intros c fr s Hn; [lia|].
  simpl. munfold. destruct (switch_to c fr s) as [[] s2| |[]] eqn:Hs; try done.
  - apply switch_to_queued in Hs. apply resume_fuel. intros fr' s' Hs'. apply IH. lia.
  - revert Hs. unfold switch_to, current, thread_at, upd_thread, pick_next. munfold.
    repeat case_match; simplify_eq; simpl; try done.
    all: repeat case_match; simplify_eq; simpl; try done.
Qed.

Lemma run_next_total c fr s : run_next c fr s ≠ Stuck OutOfFuel.
Proof. apply run_next_fuel_total. unfold queued. lia. Qed.

(** ** Join queues change only in [thread::join] and at thread exit *)


Lemma switch_to_joiners c fr s s2 :
  switch_to c fr s = Ok tt s2 →
  last_free_thread s2 = last_free_thread s ∧ ∀ t, jq s2 t = jq s t.
Proof.
  unfold switch_to, current, thread_at, upd_thread. munfold.
  destruct (pick_next s) as [next s1| |] eqn:Hpick; try done. simpl.
  assert (threads s1 = threads s ∧ last_free_thread s1 = last_free_thread s) as [Hth Hf].
  { by destruct (pick_next_inv _ _ _ Hpick) as [(q & Hq & ->)|(q & Hr & Hq & ->)]. }
  destruct (threads s1 !! next) as [nx|]; [simpl|done].
  destruct (cur s !! c) as [o|]; simpl.
  - destruct (threads s1 !! o) as [ot|] eqn:Ho; [|done]. intros [= <-]. simpl.
    split; [done|]. intros t'. unfold jq. simpl. rewrite <- Hth.
    destruct (decide (o = t')) as [<-|Hne].
    + by rewrite lookup_insert_eq, Ho.
    + by rewrite lookup_insert_ne.
  - intros [= <-]. simpl. split; [done|]. intros t'. unfold jq. simpl. by rewrite Hth.
Qed.











Lemma wake_joiners_others o q : ∀ s s',
  final (wake_joiners o q s) = Some s' →
  last_free_thread s' = last_free_thread s ∧ cur s' = cur s ∧
  ready_queue s' = ready_queue s ++ q ∧
  ∀ t, t ≠ o → threads s' !! t = threads s !! t.
Proof.
  induction q as [|p q IH]; intros s s'; simpl.
  - intros [= <-]. by rewrite app_nil_r.
  - unfold ready_push, upd_thread. munfold. simpl.
    match goal with |- context [wakeup_one_cpu ?s0] =>
      destruct (wakeup_one_cpu_total s0) as [s1 Hs1]; rewrite Hs1;
      destruct (wakeup_one_cpu_inv _ _ Hs1) as (q' & l' & ->) end.
    simpl. destruct (threads s !! o) as [th|]; simpl; [|done].
    intros Hf. destruct (IH _ _ Hf) as (-> & -> & -> & Ht). simpl.
    split_and!; try done.
    + unfold push. by rewrite <- app_assoc.
    + intros t Hne. rewrite Ht by done. simpl. by rewrite lookup_insert_ne.
Qed.


(** ** Reachability of the demonstration states *)

Lemma wakeup_one_cpu_woken s : wakeup_one_cpu s = Ok tt (woken s).
Proof. unfold wakeup_one_cpu, woken. by repeat case_match. Qed.

Lemma woken_pushed t q s :
  ready_queue s = q ++ [t] →
  ipi_log (woken s) = ipi_log s ++ take 1 (suspended_queue s) ∧
  suspended_queue (woken s) = drop 1 (suspended_queue s).
Proof.
  intros Hr. unfold woken. rewrite Hr.
  destruct q, (suspended_queue s) eqn:Hs; simpl; rewrite ?Hs, ?app_nil_r; done.
Qed.

Lemma woken_guard b s : set_guard b (woken s) = woken (set_guard b s).
Proof. unfold woken. simpl. by repeat case_match. Qed.

Lemma reachable_rtc s s' : reachable s → rtc step s s' → reachable s'.
Proof. induction 2; eauto using reachable_step. Qed.

Lemma run_reachable evs : ∀ s s', reachable s → run evs s = Some s' → reachable s'.
Proof.
  induction evs as [|[c e] evs IH]; intros s s' Hs; simpl.
  - by intros [= <-].
  - destruct (enabled c e s) eqn:He; [|done].
    destruct (exec c e s) as [r s1|x s1|] eqn:Hx; [| |done]; apply IH;
      eapply reachable_step; eauto using step_ok, step_throw.
Qed.

Lemma demo_B_run : run demo_events_B init_state = Some demo_B.
Proof. vm_compute. reflexivity. Qed.

Lemma demo_A_run : run (demo_events_B ++ [(0, EMutexLock 7)]) init_state = Some demo_A.
Proof. vm_compute. reflexivity. Qed.

Lemma demo_C_run :
  run (demo_events_B ++ [(0, EMutexLock 7); (0, EThreadMoveCtor 103 102)]) init_state
  = Some demo_C.
Proof. vm_compute. reflexivity. Qed.

Lemma demo_B_reachable : reachable demo_B.
Proof. exact (run_reachable _ _ _ reachable_init demo_B_run). Qed.

Lemma demo_A_reachable : reachable demo_A.
Proof. exact (run_reachable _ _ _ reachable_init demo_A_run). Qed.

(** * The specified properties *)

Lemma reachable_WF s : reachable s → WF s.
Proof. by intros (? & _)%reachable_Inv. Qed.

(** C1.  When the owner unlocks a mutex that has waiters, the mutex goes
    straight to the head waiter: the owner field names it, it leaves the
    wait queue for the back of the ready queue, and one wake-up of a
    suspended CPU is attempted.  From then on the mutex is never unowned
    while it has waiters, and as long as the waiter sits on the ready queue
    with its context inside [lock] it stays the owner. *)
Theorem mutex_unlock_hands_off c m s mx o t q :
  reachable s →
  cur s !! c = Some o → mutexes s !! m = Some mx →
  own_thd mx = Some o → thd_q mx = t :: q →
  ∃ s',
    mutex_unlock c m s = Ok RetCall s' ∧
    s' = woken (handed_off m t q s) ∧
    mutexes s' !! m = Some (MutexImpl (Some t) q) ∧
    ready_queue s' = ready_queue s ++ [t] ∧
    ipi_log s' = ipi_log s ++ take 1 (suspended_queue s) ∧
    suspended_queue s' = drop 1 (suspended_queue s) ∧
    (∃ th, threads s' !! t = Some th ∧ lock_frame (uc th) = Some m) ∧
    ∀ s'', rtc step s' s'' →
      (∀ m' mx', mutexes s'' !! m' = Some mx' → thd_q mx' ≠ [] → own_thd mx' ≠ None) ∧
      (∀ th, t ∈ ready_queue s'' → threads s'' !! t = Some th →
             lock_frame (uc th) = Some m →
             own_thd <$> mutexes s'' !! m = Some (Some t)).
Proof.
  intros Hreach Hc Hm Ho Hq.
  destruct (reachable_Inv s Hreach) as (Hwf & Hg & Hfree).
  assert (Hx : mutex_unlock c m s = Ok RetCall (woken (handed_off m t q s))).
  { unfold mutex_unlock, lock_guard, lock. rewrite Hg. munfold.
    rewrite (mutex_impl_unlock_handoff c m _ mx t q); [|done| |done].
    2:{ simpl. congruence. }
    rewrite wakeup_one_cpu_woken. simpl. rewrite woken_guard. f_equal.
    f_equal. destruct s; simpl in *; by subst. }
  exists (woken (handed_off m t q s)).
  destruct (woken_pushed t (ready_queue s) (handed_off m t q s) eq_refl) as [Hi Hs].
  assert (Hsame : ∀ s0, mutexes (woken s0) = mutexes s0 ∧
            ready_queue (woken s0) = ready_queue s0 ∧ threads (woken s0) = threads s0).
  { intros s0. unfold woken. by repeat case_match. }
  destruct (Hsame (handed_off m t q s)) as (Hm' & Hr' & Ht').
  assert (Hreach' : reachable (woken (handed_off m t q s))).
  { eapply reachable_step; [done|]. eapply (step_ok _ c (EMutexUnlock m)); [|exact Hx].
    unfold enabled. by rewrite Hc. }
  split_and!; try done.
  - rewrite Hm'. simpl. by rewrite lookup_insert_eq.
  - rewrite Ht'. simpl.
    assert (Hin : t ∈ site_list s (SMutex m)). { simpl. rewrite Hm. simpl. rewrite Hq. by left. }
    destruct (wf_live Hwf t _ Hin) as [u Hu].
    pose proof (wf_typed Hwf t _ u Hin Hu) as Hty. simpl in Hty.
    unfold actx in Hu. destruct (threads s !! t) as [th|]; [|done].
    exists th. split; [done|]. by injection Hu as ->.
  - intros s'' Hrtc. pose proof (reachable_WF _ (reachable_rtc _ _ Hreach' Hrtc)) as Hwf''.
    split.
    + apply (wf_mutex Hwf'').
    + intros th Hin Hth Hl. apply (wf_typed Hwf'' t SReady (uc th)); [done| |done].
      unfold actx. by rewrite Hth.
Qed.

Lemma mutex_unlock_hands_off_witness :
  ∃ s', mutex_unlock 0 7 demo_A = Ok RetCall s' ∧
        mutexes s' !! 7 = Some (MutexImpl (Some 3) []) ∧
        ready_queue s' = [3].
Proof.
  destruct (mutex_unlock_hands_off 0 7 demo_A (MutexImpl (Some 1) [3]) 1 3 [])
    as (s' & H1 & _ & H2 & H3 & _); [exact demo_A_reachable|reflexivity..|].
  exists s'. split_and!; assumption.
Defined.

(** C2.  [unlock] by a thread that does not own the mutex (be it locked by
    another thread or not locked at all) throws the ownership error and
    leaves the whole state, the mutex and every queue, as it was. *)
Theorem mutex_unlock_not_owner c m s mx t :
  guard s = false →
  cur s !! c = Some t → mutexes s !! m = Some mx → own_thd mx ≠ Some t →
  mutex_unlock c m s = Throw ReleaseNotOwn s.
Proof.
  intros Hg Hc Hm Hne. unfold mutex_unlock, lock_guard, lock. rewrite Hg. munfold.
  rewrite (mutex_impl_unlock_not_owner c m _ mx); [|done|simpl; congruence].
  by rewrite set_guard_release.
Qed.

Lemma mutex_unlock_not_owner_witness :
  mutex_unlock 0 7 demo_B = Throw ReleaseNotOwn demo_B.
Proof.
  apply (mutex_unlock_not_owner 0 7 demo_B (MutexImpl (Some 1) []) 3);
    [reflexivity..|discriminate].
Defined.

(** C10.  [cv::wait] with a mutex the caller does not own throws the
    ownership error from the internal unlock, before the caller is put on
    the condition variable's queue: the state is as it was. *)
Theorem cv_wait_not_owner c v m s mx t :
  guard s = false →
  cur s !! c = Some t → mutexes s !! m = Some mx → own_thd mx ≠ Some t →
  cv_wait c v m s = Throw ReleaseNotOwn s.
Proof.
  intros Hg Hc Hm Hne. unfold cv_wait, lock_guard, lock, cv_impl_wait. rewrite Hg. munfold.
  rewrite (mutex_impl_unlock_not_owner c m _ mx); [|done|simpl; congruence].
  by rewrite set_guard_release.
Qed.

Lemma cv_wait_not_owner_witness :
  cv_wait 0 8 7 demo_B = Throw ReleaseNotOwn demo_B.
Proof.
  apply (cv_wait_not_owner 0 8 7 demo_B (MutexImpl (Some 1) []) 3);
    [reflexivity..|discriminate].
Defined.

(** C9.  Constructing a thread with a null function throws the
    invalid-argument error out of the constructor with nothing enqueued and
    the guard released; with a user function the new internal thread goes to
    the back of the ready queue and one wake-up is attempted. *)
Theorem thread_ctor_null_or_ready h t s :
  guard s = false → handles s !! h = None → threads s !! t = None →
  thread_ctor h NullFn t s = Throw NullptrFunction s ∧
  ∀ f, ∃ s',
    thread_ctor h (UserFn f) t s = Ok RetCall s' ∧
    threads s' = <[t := ThreadImpl (Some h) (CStart (UserFn f)) []]> (threads s) ∧
    handles s' = <[h := Some t]> (handles s) ∧
    ready_queue s' = ready_queue s ++ [t] ∧
    idle_queue s' = idle_queue s ∧
    ipi_log s' = ipi_log s ++ take 1 (suspended_queue s) ∧
    suspended_queue s' = drop 1 (suspended_queue s) ∧
    guard s' = false.
Proof.
  intros Hg Hh Ht. split.
  - unfold thread_ctor, lock_guard, lock. rewrite Hg. munfold. simpl.
    rewrite Hh, Ht. simpl. by rewrite set_guard_release.
  - intros f. unfold thread_ctor, lock_guard, lock. rewrite Hg. munfold. simpl.
    rewrite Hh, Ht. unfold thread_impl_ctor, ready_push. munfold. simpl.
    rewrite wakeup_one_cpu_woken. simpl.
    match goal with |- context [woken ?s0] =>
      destruct (woken_pushed t (ready_queue s) s0 eq_refl) as [Hi Hs];
      assert (Hsame : threads (woken s0) = threads s0 ∧ ready_queue (woken s0) = ready_queue s0
                ∧ idle_queue (woken s0) = idle_queue s0 ∧ handles (woken s0) = handles s0)
        by (unfold woken; by repeat case_match)
    end.
    destruct Hsame as (Ht' & Hr' & Hi' & Hh').
    eexists. split; [reflexivity|]. simpl. rewrite Ht', Hr', Hi', Hh', Hi, Hs. done.
Qed.

Lemma thread_ctor_null_or_ready_witness :
  thread_ctor 103 NullFn 4 demo_A = Throw NullptrFunction demo_A ∧
  ∃ s', thread_ctor 103 (UserFn 5) 4 demo_A = Ok RetCall s' ∧ ready_queue s' = [4].
Proof.
  destruct (thread_ctor_null_or_ready 103 4 demo_A) as [H1 H2]; [reflexivity..|].
  split; [exact H1|]. destruct (H2 5) as (s' & Hx & _ & _ & Hr & _).
  exists s'. split; assumption.
Defined.

(** C3.  [run_next] takes the head of the ready queue if there is one and
    the head of the idle queue otherwise, makes it the CPU's current thread,
    and switches to it: with a previous current thread its context is saved
    (swap), without one nothing is saved (set).  The thread switched to then
    runs from its resumption point. *)
Theorem run_next_picks c fr s t q s1 nx :
  (ready_queue s = t :: q ∧ s1 = set_ready q s) ∨
  (ready_queue s = [] ∧ idle_queue s = t :: q ∧ s1 = set_idle q s) →
  threads s !! t = Some nx →
  (cur s !! c = None →
     switch_to c fr s = Ok tt (set_cur (<[c := t]> (cur s)) s1)) ∧
  (∀ o ot, cur s !! c = Some o → threads s !! o = Some ot →
     switch_to c fr s =
       Ok tt (set_threads (<[o := set_uc (CSaved fr) ot]> (threads s))
                (set_cur (<[c := t]> (cur s)) s1))) ∧
  run_next c fr s = (switch_to c fr;; resume (run_next c) c) s ∧
  run_next c fr s ≠ Stuck OutOfFuel.
Proof.
  intros Hpick Hnx.
  assert (Hp : pick_next s = Ok t s1).
  { unfold pick_next. destruct Hpick as [[Hr ->]|(Hr & Hi & ->)]; rewrite Hr; [done|].
    by rewrite Hi. }
  assert (Hth : threads s1 = threads s ∧ cur s1 = cur s).
  { by destruct Hpick as [[Hr ->]|(Hr & Hi & ->)]. }
  destruct Hth as [Hth Hc1].
  split_and!.
  - intros Hc. unfold switch_to, current, thread_at. munfold. rewrite Hp. simpl.
    rewrite Hth, Hnx, Hc, Hc1. done.
  - intros o ot Hc Ho. unfold switch_to, current, thread_at, upd_thread. munfold.
    rewrite Hp. simpl. rewrite Hth, Hnx, Hc, Hc1. simpl. rewrite Hth, Ho. done.
  - apply run_next_unfold.
  - apply run_next_total.
Qed.

Lemma run_next_picks_witness :
  switch_to 0 FYield (set_guard true (set_ready [1; 3] demo_B)) =
    Ok tt (set_threads
             (<[3 := ThreadImpl (Some 102) (CSaved FYield) []]> (threads demo_B))
             (set_cur {[0 := 1]} (set_guard true (set_ready [3] demo_B)))).
Proof.
  destruct (run_next_picks 0 FYield (set_guard true (set_ready [1; 3] demo_B)) 1 [3]
              (set_guard true (set_ready [3] demo_B)) (ThreadImpl None (CSaved FYield) []))
    as (_ & H & _); [left; split; reflexivity|reflexivity|].
  exact (H 3 (ThreadImpl (Some 102) (CStart (UserFn 2)) []) eq_refl eq_refl).
Defined.



Lemma wake_joiners_drains o q : ∀ s s' th,
  threads s !! o = Some th → join_thd th = q →
  final (wake_joiners o q s) = Some s' →
  threads s' !! o = Some (set_join_thd [] th) ∧ handles s' = handles s ∧
  guard s' = guard s.
Proof.
  induction q as [|p q IH]; intros s s' th Ho Hq; simpl.
  - intros [= <-]. rewrite Ho. destruct th; simpl in *; by subst.
  - unfold ready_push, upd_thread. munfold. simpl.
    rewrite wakeup_one_cpu_woken. simpl.
    assert (Hsame : ∀ s0, threads (woken s0) = threads s0 ∧ handles (woken s0) = handles s0
              ∧ guard (woken s0) = guard s0).
    { intros s0. unfold woken. by repeat case_match. }
    match goal with |- context [woken ?s0] =>
      destruct (Hsame s0) as (Hth & Hh & Hg) end.
    rewrite Hth. simpl. rewrite Ho. simpl. intros Hf.
    destruct (IH _ _ (set_join_thd (tail (join_thd th)) th)
                (lookup_insert_eq _ _ _) ltac:(simpl; by rewrite Hq) Hf)
      as (Ho' & Hh' & Hg').
    rewrite Ho', Hh', Hg'. simpl. by rewrite Hh, Hg.
Qed.

Lemma thread_exit_steps_inv c s o s1 :
  thread_exit_steps c s = Ok o s1 →
  cur s !! c = Some o ∧ cur s1 !! c = Some o ∧ last_free_thread s1 = Some o ∧
  ∃ th, threads s !! o = Some th ∧
    threads s1 !! o = Some (set_join_thd [] th) ∧
    ready_queue s1 = ready_queue s ++ join_thd th ∧
    (∀ t, t ≠ o → threads s1 !! t = threads s !! t) ∧
    handles s1 = match parent th with
                 | Some h => <[h := None]> (handles s)
                 | None => handles s
                 end.
Proof.
  unfold thread_exit_steps, lock, self_thd, current, thread_at, set_impl_ptr. munfold.
  destruct (guard s); [done|]. simpl.
  destruct (cur s !! c) as [o'|] eqn:Hc; simpl; [|done].
  destruct (threads s !! o') as [th|] eqn:Ho; simpl; [|done].
  pose proof (wake_joiners_others o' (join_thd th) (set_guard true s)) as Hw.
  pose proof (wake_joiners_drains o' (join_thd th) (set_guard true s)) as Hd.
  destruct (wake_joiners o' _ (set_guard true s)) as [[] s2|e s2|]; simpl; try done.
  destruct (Hw _ eq_refl) as (Hf & Hc2 & Hr & Hoth).
  destruct (Hd _ th Ho eq_refl eq_refl) as (Ho2 & Hh2 & _). simpl in *.
  rewrite Ho2. simpl.
  destruct (parent th) as [h|] eqn:Hp; simpl.
  - destruct (handles s2 !! h); simpl; [|done]. intros [= <- <-]. simpl.
    rewrite Hc2, Hh2. split_and!; try done. exists th. split_and!; try done.
    by rewrite Hp.
  - intros [= <- <-]. simpl. rewrite Hc2. split_and!; try done. exists th.
    split_and!; try done. by rewrite Hp.
Qed.


Lemma switch_to_handles c fr s s2 :
  switch_to c fr s = Ok tt s2 →
  handles s2 = handles s ∧
  ∀ t, parent <$> threads s2 !! t = parent <$> threads s !! t.
Proof.
  unfold switch_to, current, thread_at, upd_thread. munfold.
  destruct (pick_next s) as [next s1| |] eqn:Hpick; try done. simpl.
  assert (threads s1 = threads s ∧ handles s1 = handles s) as [Hth Hh].
  { by destruct (pick_next_inv _ _ _ Hpick) as [(q & Hq & ->)|(q & Hr & Hq & ->)]. }
  destruct (threads s1 !! next) as [nx|]; [simpl|done].
  destruct (cur s !! c) as [o|]; simpl.
  - destruct (threads s1 !! o) as [ot|] eqn:Ho; [|done]. intros [= <-]. simpl.
    split; [done|]. intros t'. rewrite <- Hth.
    destruct (decide (o = t')) as [<-|Hne].
    + by rewrite lookup_insert_eq, Ho.
    + by rewrite lookup_insert_ne.
  - intros [= <-]. simpl. by rewrite Hth.
Qed.

Lemma delete_last_free_inv s s' z th :
  delete_last_free s = Ok tt s' →
  last_free_thread s = Some z → threads s !! z = Some th →
  threads s' = delete z (threads s) ∧
  handles s' = match parent th with
               | Some h => <[h := None]> (handles s)
               | None => handles s
               end.
Proof.
  unfold delete_last_free, thread_at, set_impl_ptr. munfold.
  intros H Hz Hth. revert H. rewrite Hz. simpl. rewrite Hth. simpl.
  destruct (parent th) as [h|]; simpl.
  - destruct (handles s !! h); simpl; [|done]. by intros [= <-].
  - by intros [= <-].
Qed.

Lemma resume_deletes rn c s r s' :
  resume rn c s = Ok r s' → ∃ s3, delete_last_free s = Ok tt s3.
Proof.
  unfold resume, self_thd, current, thread_at. munfold.
  destruct (cur s !! c); simpl; [|done].
  destruct (threads s !! n); simpl; [|done].
  destruct (uc t); destruct (delete_last_free s) as [[] s3| |]; try done; eauto.
Qed.

(** C7 as stated fails: after the exit steps of thread 3 in [demo_B] its
    own back-link still names handle 102. *)
Lemma thread_exit_keeps_own_back_link :
  ¬ (∀ c s o s1 th,
       reachable s → thread_exit_steps c s = Ok o s1 →
       threads s1 !! o = Some th → parent th = None).
Proof.
  intros H.
  specialize (H 0 demo_B 3 demo_B_exit
    (ThreadImpl (Some 102) (CStart (UserFn 2)) []) demo_B_reachable).
  discriminate H; reflexivity.
Qed.

(** C7, amended.  The exit steps clear the handle's side of the link only:
    the handle's internal pointer becomes null, the exiting thread's own
    back-link stays as it was, and the destructor run by the deferred free
    writes null to that handle's pointer once more, which leaves the handles
    as they were. *)
Theorem thread_exit_clears_handle_side c s o s1 :
  thread_exit_steps c s = Ok o s1 →
  last_free_thread s1 = Some o ∧
  parent <$> threads s1 !! o = parent <$> threads s !! o ∧
  ∀ h, parent <$> threads s !! o = Some (Some h) →
    handles s1 = <[h := None]> (handles s) ∧
    ∀ s2 s3,
      switch_to c FExit s1 = Ok tt s2 → delete_last_free s2 = Ok tt s3 →
      handles s3 = <[h := None]> (handles s2) ∧ handles s3 = handles s1 ∧
      threads s3 !! o = None.
Proof.
  intros Hx.
  destruct (thread_exit_steps_inv c s o s1 Hx)
    as (Hc & Hc1 & Hf1 & th & Ho & Ho1 & _ & _ & Hh1).
  split; [done|]. split; [by rewrite Ho, Ho1|].
  intros h. rewrite Ho. simpl. intros [= Hp]. rewrite Hp in Hh1. split; [done|].
  intros s2 s3 Hsw Hdel.
  destruct (switch_to_handles c FExit s1 s2 Hsw) as [Hh2 Hp2].
  destruct (switch_to_joiners c FExit s1 s2 Hsw) as [Hf2 _].
  specialize (Hp2 o). rewrite Ho1 in Hp2. simpl in Hp2. rewrite Hp in Hp2.
  destruct (threads s2 !! o) as [th2|] eqn:Ho2; [|done]. injection Hp2 as Hp2.
  destruct (delete_last_free_inv s2 s3 o th2 Hdel) as [Ht3 Hh3]; [congruence|done|].
  rewrite Hp2 in Hh3. split_and!.
  - done.
  - rewrite Hh3, Hh2, Hh1. by rewrite insert_insert_eq.
  - rewrite Ht3. apply lookup_delete_eq.
Qed.

Lemma thread_exit_clears_handle_side_witness :
  last_free_thread demo_B_exit = Some 3 ∧
  parent <$> threads demo_B_exit !! 3 = Some (Some 102) ∧
  handles demo_B_exit = <[102 := None]> (handles demo_B).
Proof.
  destruct (thread_exit_clears_handle_side 0 demo_B 3 demo_B_exit eq_refl)
    as (H1 & H2 & H3).
  split; [exact H1|]. split; [exact H2|].
  exact (proj1 (H3 102 eq_refl)).
Defined.

(** C8.  While the guard is free the [last_free_thread] slot is empty, no
    live thread has exited, and every CPU's current thread is live.  A
    thread that exits parks itself in the slot without freeing itself; after
    the switch it is the only exited thread, still allocated, and the CPU
    runs another, live thread; the first thing the thread switched to does
    is to free it and clear the slot, leaving every CPU on a live thread. *)
Theorem deferred_free_safe s :
  reachable s →
  last_free_thread s = None ∧
  (∀ t th, threads s !! t = Some th → uc th ≠ CSaved FExit) ∧
  (∀ c t, cur s !! c = Some t → is_Some (threads s !! t)) ∧
  ∀ c o s1, thread_exit_steps c s = Ok o s1 →
    last_free_thread s1 = Some o ∧ is_Some (threads s1 !! o) ∧
    cur s1 !! c = Some o ∧
    ∀ s2, switch_to c FExit s1 = Ok tt s2 →
      last_free_thread s2 = Some o ∧
      (∀ t th, threads s2 !! t = Some th → uc th = CSaved FExit → t = o) ∧
      is_Some (threads s2 !! o) ∧
      (∃ next, cur s2 !! c = Some next ∧ next ≠ o) ∧
      (∀ c' t, cur s2 !! c' = Some t → is_Some (threads s2 !! t)) ∧
      ∀ rn r s', resume rn c s2 = Ok r s' →
        ∃ s3, delete_last_free s2 = Ok tt s3 ∧
              threads s3 !! o = None ∧ last_free_thread s3 = None ∧
              ∀ c' t, cur s3 !! c' = Some t → is_Some (threads s3 !! t).
Proof.
  intros Hreach. pose proof (reachable_Inv s Hreach) as HI.
  destruct HI as (Hwf & Hg & Hfree).
  assert (Hlive : ∀ s0, WF s0 → ∀ c t, cur s0 !! c = Some t → is_Some (threads s0 !! t)).
  { intros s0 Hwf0 c t Hc.
    destruct (wf_live Hwf0 t (SCpu c)) as [u Hu]; [by apply site_cpu_elem|].
    unfold actx in Hu. by destruct (threads s0 !! t). }
  assert (Hex : ∀ s0, WF s0 → ∀ t th, threads s0 !! t = Some th →
            uc th = CSaved FExit → last_free_thread s0 = Some t).
  { intros s0 Hwf0 t th Ht Hu.
    assert (actx s0 t = Some (CSaved FExit)) as Ha by (unfold actx; by rewrite Ht, <- Hu).
    pose proof (wf_exited Hwf0 t Ha) as Hin. simpl in Hin.
    destruct (last_free_thread s0); simpl in Hin.
    - apply list_elem_of_singleton in Hin. by subst.
    - by apply elem_of_nil in Hin. }
  split_and!; try done.
  - intros t th Ht Hu. specialize (Hex s Hwf t th Ht Hu). congruence.
  - by apply Hlive.
  - intros c o s1 Hx.
    pose proof (thread_exit_steps_spec c s (conj Hwf (conj Hg Hfree))) as Hsp.
    rewrite Hx in Hsp. destruct Hsp as (HP & Hg1 & Hc1 & Hf1).
    destruct (thread_exit_steps_inv c s o s1 Hx) as (_ & _ & _ & th & _ & Ho1 & _).
    split_and!; try done. intros s2 Hsw.
    destruct (switch_to_spec c FExit s1 s2 HP Hsw) as (Hwf2 & Hf2 & _ & _ & next & Hc2 & _).
    destruct (switch_to_handles c FExit s1 s2 Hsw) as [_ Hp2].
    assert (Ho2 : is_Some (threads s2 !! o)).
    { specialize (Hp2 o). rewrite Ho1 in Hp2. by destruct (threads s2 !! o). }
    assert (Hf2' : last_free_thread s2 = Some o) by congruence.
    split_and!; try done.
    + intros t th2 Ht Hu. specialize (Hex s2 Hwf2 t th2 Ht Hu). congruence.
    + exists next. split; [done|]. intros ->.
      assert (SFree = SCpu c); [|done].
      apply (wf_single Hwf2 o); [simpl; by rewrite Hf2'; left|by apply site_cpu_elem].
    + by apply Hlive.
    + intros rn r s' Hres. destruct (resume_deletes rn c s2 r s' Hres) as [s3 Hdel].
      exists s3. destruct (delete_last_free_spec s2 s3 Hwf2 Hdel) as (Hwf3 & Hf3 & _).
      destruct Ho2 as [th2 Ho2].
      destruct (delete_last_free_inv s2 s3 o th2 Hdel Hf2' Ho2) as [Ht3 _].
      split_and!; try done.
      * rewrite Ht3. apply lookup_delete_eq.
      * by apply Hlive.
Qed.

Lemma deferred_free_safe_witness :
  last_free_thread demo_B = None ∧
  (∀ c t, cur demo_B !! c = Some t → is_Some (threads demo_B !! t)) ∧
  last_free_thread demo_B_exit = Some 3 ∧ is_Some (threads demo_B_exit !! 3) ∧
  ∀ s2, switch_to 0 FExit demo_B_exit = Ok tt s2 →
        ∃ next, cur s2 !! 0 = Some next ∧ next ≠ 3.
Proof.
  destruct (deferred_free_safe demo_B demo_B_reachable) as (H1 & _ & H2 & H3).
  destruct (H3 0 3 demo_B_exit eq_refl) as (H4 & H5 & _ & H6).
  split; [exact H1|]. split; [exact H2|]. split; [exact H4|]. split; [exact H5|].
  intros s2 Hs2. destruct (H6 s2 Hs2) as (_ & _ & _ & H7 & _). exact H7.
Defined.

Lemma demo_H_run : run demo_events_H init_state = Some demo_H.
Proof. vm_compute. reflexivity. Qed.

(** C6.  Move-assignment onto a handle that owns a live internal thread
    leaves that thread's back-link pointing at the handle, which now owns
    the moved thread: the link invariant holds before and fails after.  When
    the previous thread (3) later exits it nulls the handle, so that
    [join] on handle 10 returns at once although thread 4 has not run. *)
Theorem move_assign_leaves_stale_back_link :
  reachable demo_H ∧ linked demo_H = true ∧
  thread_move_assign 10 11 demo_H = Ok RetCall demo_H_moved ∧
  handles demo_H_moved !! 10 = Some (Some 4) ∧
  parent <$> threads demo_H_moved !! 3 = Some (Some 10) ∧
  parent <$> threads demo_H_moved !! 4 = Some (Some 10) ∧
  linked demo_H_moved = false ∧
  ∃ s,
    run [(0, EThreadYield); (0, EFnReturn); (0, ETimer)] demo_H_moved = Some s ∧
    cur s !! 0 = Some 1 ∧ handles s !! 10 = Some None ∧
    threads s !! 4 = Some (ThreadImpl (Some 10) (CSaved FTimer) []) ∧
    thread_join 0 10 s = Ok RetCall s.
Proof.
  split; [exact (run_reachable _ _ _ reachable_init demo_H_run)|].
  do 6 (split; [vm_compute; reflexivity|]).
  eexists. split; [vm_compute; reflexivity|].
  split_and!; vm_compute; reflexivity.
Qed.


